(** * UPnP pose solver (theia/sfm/pose/upnp.cc): embedding and properties

    The file embeds the functions of [src/theia/sfm/pose/upnp.cc]:
    [ComputeHMatrixAndRayDirectionsOuterProducts], [LeftMultiply],
    [ComputeHelperMatrices], [ComputeCostMatrices] and [Upnp].

    Numbers.  The C++ code computes with [double].  The properties studied
    here are algebraic identities of the accumulation stages, so [double] is
    idealised as an arbitrary real (ordered) field [F]: every operation is
    exact.  Concrete runs are taken at [F := rat].

    Matrices.  The fixed-size Eigen types [Matrix3d], [Vector3d],
    [Matrix3x10d], [Matrix10d] and [Vector10d] are MathComp matrices
    ['M[F]_3], ['cV[F]_3], ['M[F]_(3,10)], ['M[F]_10] and ['cV[F]_10].

    Control.  A glog [CHECK] that fails aborts the process, and
    [operator[]] past the end of a [std::vector] is undefined behaviour;
    both are outcomes of a run, next to normal completion. *)

From HB Require Import structures.
From mathcomp Require Import ssreflect ssrfun ssrbool eqtype ssrnat seq choice.
From mathcomp Require Import fintype bigop order ssralg ssrnum ssrint rat matrix.
From Stdlib Require Import Ring.

Set Implicit Arguments.
Unset Strict Implicit.
Unset Printing Implicit Defensive.

Import GRing.Theory Num.Theory Order.Theory.
Local Open Scope ring_scope.

(** ** Outcomes of a run *)

Inductive outcome (T : Type) : Type :=
  | Done of T        (* the call returns *)
  | CheckFailed      (* a glog CHECK fails: the process aborts *)
  | OutOfBounds.     (* std::vector::operator[] past the end *)

Arguments CheckFailed {T}.
Arguments OutOfBounds {T}.

Definition bind (S T : Type) (c : outcome S) (k : S -> outcome T) : outcome T :=
  match c with
  | Done s => k s
  | CheckFailed => CheckFailed
  | OutOfBounds => OutOfBounds
  end.

Notation "x <- c ;; k" := (bind c (fun x => k))
  (at level 61, c at next level, right associativity).
Notation "' p <- c ;; k" := (bind c (fun x => let: p := x in k))
  (at level 61, p pattern, c at next level, right associativity).

(** A pointer argument: [None] is the null pointer, [Some v] a valid address
    whose pointee holds [v] when the call starts. *)
Definition ptr (T : Type) : Type := option T.

(** [CHECK_NOTNULL(p)]: aborts on the null pointer, yields the pointee. *)
Definition CHECK_NOTNULL (T : Type) (p : ptr T) : outcome T :=
  if p is Some v then Done v else CheckFailed.

(** [CHECK_EQ(a, b)] on sizes. *)
Definition CHECK_EQ (a b : nat) : outcome unit :=
  if a == b then Done tt else CheckFailed.

(** [v[i]] on a [std::vector]. *)
Fixpoint at_index (T : Type) (v : seq T) (i : nat) : outcome T :=
  match v, i with
  | [::], _ => OutOfBounds
  | x :: _, 0%N => Done x
  | _ :: v', i'.+1 => at_index v' i'
  end.

(** [for (int i = 0; i < n; ++i) body], the loop state passed explicitly.
    (Sizes are taken to fit an [int], as the source assumes.) *)
Definition for_range (S : Type) (n : nat) (body : nat -> S -> outcome S)
    (init : S) : outcome S :=
  foldl (fun acc i => st <- acc ;; body i st) (Done init) (iota 0 n).

(** The three row indices of a [Vector3d] / [Matrix3d]. *)
Definition i0 : 'I_3 := ord0.
Definition i1 : 'I_3 := lift ord0 ord0.
Definition i2 : 'I_3 := lift ord0 (lift ord0 ord0).

Section Embedding.

Variable F : realFieldType.

Definition Vector3d : Type := 'cV[F]_3.
Definition Matrix3d : Type := 'M[F]_3.
Definition Matrix3x10d : Type := 'M[F]_(3, 10).
Definition Matrix10d : Type := 'M[F]_10.
Definition Vector10d : Type := 'cV[F]_10.

(** [Eigen::Quaterniond], coefficients [w] (scalar part), [x], [y], [z]. *)
Record Quaterniond : Type := Quat { qw : F; qx : F; qy : F; qz : F }.

(** Eigen's [inverse()] of a fixed-size 3x3 matrix: the transposed cofactor
    matrix scaled by the reciprocal of the determinant.  On a singular matrix
    the C++ code divides by zero and returns non-finite entries; the field's
    [0^-1 = 0] stands there instead, and no property below reads the value of
    [inverse] at a singular matrix. *)
Definition inverse (m : Matrix3d) : Matrix3d := (\det m)^-1 *: \adj m.

(** [v.squaredNorm()] *)
Definition squaredNorm (v : Vector3d) : F := \sum_(k < 3) v k ord0 ^+ 2.

(** Loop of [ComputeHMatrixAndRayDirectionsOuterProducts]: state is
    [(h_inverse, *outer_products)]. *)
Definition h_step (st : Matrix3d * seq Matrix3d) (ray : Vector3d) :
    Matrix3d * seq Matrix3d :=
  let: (h_inverse, outer_products) := st in
  let outer_products := rcons outer_products (ray *m ray^T) in
  (h_inverse - last 0 outer_products, outer_products).

(** Returns [(H, *outer_products)]. *)
Definition ComputeHMatrixAndRayDirectionsOuterProducts
    (ray_directions : seq Vector3d) (outer_products : ptr (seq Matrix3d)) :
    outcome (Matrix3d * seq Matrix3d) :=
  outer_products <- CHECK_NOTNULL outer_products ;;
  let h_inverse : Matrix3d := 0 in
  let: (h_inverse, outer_products) :=
    foldl h_step (h_inverse, outer_products) ray_directions in
  let h_inverse := h_inverse + (size ray_directions)%:R *: 1%:M in
  Done (inverse h_inverse, outer_products).

Definition phi_table (point : Vector3d) : seq (seq F) :=
  let x := point i0 ord0 in
  let y := point i1 ord0 in
  let z := point i2 ord0 in
  [:: (* Row 0. *)
      [:: x; x; - x; - x; 0; 2 * z; (- 2) * y; 2 * y; 2 * z; 0];
      (* Row 1. *)
      [:: y; - y; y; - y; (- 2) * z; 0; 2 * x; 2 * x; 0; 2 * z];
      (* Row 2 (the source's comment says row 3). *)
      [:: z; - z; - z; z; 2 * y; (- 2) * x; 0; 0; 2 * x; 2 * y] ].

Definition LeftMultiply (point : Vector3d) : Matrix3x10d :=
  \matrix_(i < 3, j < 10) nth 0 (nth [::] (phi_table point) i) j.

(** Body of the loop of [ComputeHelperMatrices]: state is
    [( *g_matrix, *j_matrix)]. *)
Definition helper_step (world_points ray_origins : seq Vector3d)
    (outer_products : seq Matrix3d) (h_matrix : Matrix3d) (i : nat)
    (st : Matrix3x10d * Vector3d) : outcome (Matrix3x10d * Vector3d) :=
  let: (g_matrix, j_matrix) := st in
  let identity : Matrix3d := 1%:M in
  outer_product <- at_index outer_products i ;;
  let v_matrix := h_matrix *m (outer_product - identity) in
  world_point <- at_index world_points i ;;
  let left_multiply_mat := LeftMultiply world_point in
  ray_origin <- at_index ray_origins i ;;
  let j_matrix := j_matrix + v_matrix *m ray_origin in
  let g_matrix := g_matrix + v_matrix *m left_multiply_mat in
  Done (g_matrix, j_matrix).

(** Returns [( *g_matrix, *j_matrix)]. *)
Definition ComputeHelperMatrices (world_points ray_origins : seq Vector3d)
    (outer_products : seq Matrix3d) (h_matrix : Matrix3d)
    (g_matrix : ptr Matrix3x10d) (j_matrix : ptr Vector3d) :
    outcome (Matrix3x10d * Vector3d) :=
  _ <- CHECK_EQ (size ray_origins) (size outer_products) ;;
  _ <- CHECK_NOTNULL g_matrix ;;
  let g_matrix : Matrix3x10d := 0 in
  _ <- CHECK_NOTNULL j_matrix ;;
  let j_matrix : Vector3d := 0 in
  for_range (size ray_origins)
    (helper_step world_points ray_origins outer_products h_matrix)
    (g_matrix, j_matrix).

(** Body of the loop of [ComputeCostMatrices]: state is
    [( *a_matrix, *b_vector, gamma)]. *)
Definition cost_step (world_points ray_origins : seq Vector3d)
    (outer_products : seq Matrix3d) (g_matrix : Matrix3x10d)
    (j_matrix : Vector3d) (i : nat) (st : Matrix10d * Vector10d * F) :
    outcome (Matrix10d * Vector10d * F) :=
  let: (a_matrix, b_vector, gamma) := st in
  let identity : Matrix3d := 1%:M in
  world_point <- at_index world_points i ;;
  let left_multiply_mat := LeftMultiply world_point in
  outer_product <- at_index outer_products i ;;
  let outer_prod_minus_identity := outer_product - identity in
  let temp_a_mat := outer_prod_minus_identity *m (left_multiply_mat + g_matrix) in
  let a_matrix := a_matrix + temp_a_mat^T *m temp_a_mat in
  ray_origin <- at_index ray_origins i ;;
  let temp_b_mat := (- outer_prod_minus_identity) *m (ray_origin + j_matrix) in
  let b_vector := b_vector + temp_a_mat^T *m temp_b_mat in
  let gamma := gamma + squaredNorm temp_b_mat in
  Done (a_matrix, b_vector, gamma).

(** Returns [( *a_matrix, *b_vector, gamma)]. *)
Definition ComputeCostMatrices (world_points ray_origins : seq Vector3d)
    (outer_products : seq Matrix3d) (g_matrix : Matrix3x10d)
    (j_matrix : Vector3d) (a_matrix : ptr Matrix10d) (b_vector : ptr Vector10d) :
    outcome (Matrix10d * Vector10d * F) :=
  _ <- CHECK_NOTNULL a_matrix ;;
  let a_matrix : Matrix10d := 0 in
  _ <- CHECK_NOTNULL b_vector ;;
  let b_vector : Vector10d := 0 in
  let gamma : F := 0 in
  for_range (size world_points)
    (cost_step world_points ray_origins outer_products g_matrix j_matrix)
    (a_matrix, b_vector, gamma).

(** The locals of [Upnp] and the pointees of its two output arguments when
    the function returns. *)
Record UpnpFrame : Type := Frame {
  fr_outer_products : seq Matrix3d;
  fr_h_matrix : Matrix3d;
  fr_g_matrix : Matrix3x10d;
  fr_j_matrix : Vector3d;
  fr_a_matrix : Matrix10d;
  fr_b_mat : Vector10d;
  fr_gamma : F;
  fr_solution_rotations : seq Quaterniond;
  fr_solution_translations : seq Vector3d
}.

(** [Upnp], keeping the whole frame at the closing brace.  The locals
    [g_matrix], [j_matrix], [a_matrix] and [b_mat] are declared without an
    initialiser and passed by address; the callees overwrite them ([setZero])
    before any read, so the value [0] given to the pointee here is never
    observed ([ComputeHelperMatrices_pointee], [ComputeCostMatrices_pointee]). *)
Definition Upnp_frame (ray_origins ray_directions world_points : seq Vector3d)
    (solution_rotations : ptr (seq Quaterniond))
    (solution_translations : ptr (seq Vector3d)) : outcome UpnpFrame :=
  _ <- CHECK_NOTNULL solution_rotations ;;
  let solution_rotations : seq Quaterniond := [::] in
  _ <- CHECK_NOTNULL solution_translations ;;
  let solution_translations : seq Vector3d := [::] in
  (* 1. Compute the H matrix and the outer products of the ray directions. *)
  let outer_products : seq Matrix3d := [::] in
  ' (h_matrix, outer_products) <-
    ComputeHMatrixAndRayDirectionsOuterProducts ray_directions
      (Some outer_products) ;;
  (* 2. Compute matrices J and G. *)
  ' (g_matrix, j_matrix) <-
    ComputeHelperMatrices world_points ray_origins outer_products h_matrix
      (Some 0) (Some 0) ;;
  (* 3. Compute the blocks of matrix M. *)
  ' (a_matrix, b_mat, gamma) <-
    ComputeCostMatrices world_points ray_origins outer_products g_matrix
      j_matrix (Some 0) (Some 0) ;;
  Done (Frame outer_products h_matrix g_matrix j_matrix a_matrix b_mat gamma
          solution_rotations solution_translations).

(** [Upnp] as its caller sees it: the final contents of
    [*solution_rotations] and [*solution_translations]. *)
Definition Upnp (ray_origins ray_directions world_points : seq Vector3d)
    (solution_rotations : ptr (seq Quaterniond))
    (solution_translations : ptr (seq Vector3d)) :
    outcome (seq Quaterniond * seq Vector3d) :=
  f <- Upnp_frame ray_origins ray_directions world_points solution_rotations
         solution_translations ;;
  Done (fr_solution_rotations f, fr_solution_translations f).

End Embedding.

(** ** Notions used to state the properties *)

Section Notions.

Variable F : realFieldType.

(** [N * I - sum_i d_i * d_i^T], the matrix that the direction aggregator
    accumulates before inverting. *)
Definition aggregate (ray_directions : seq (Vector3d F)) : Matrix3d F :=
  (size ray_directions)%:R *: 1%:M - \sum_(d <- ray_directions) d *m d^T.

(** [h] is the matrix inverse of [m]. *)
Definition is_inverse_of (h m : Matrix3d F) : Prop :=
  h *m m = 1%:M /\ m *m h = 1%:M.

(** [V_i = H * (outer_product_i - I)] *)
Definition V_matrix (h : Matrix3d F) (outer_product : Matrix3d F) : Matrix3d F :=
  h *m (outer_product - 1%:M).

(** [Temp_A_i = (outer_product_i - I) * (Phi(worldPoint_i) + G)] *)
Definition Temp_A (g : Matrix3x10d F) (outer_product : Matrix3d F)
    (world_point : Vector3d F) : Matrix3x10d F :=
  (outer_product - 1%:M) *m (LeftMultiply world_point + g).

(** [Temp_B_i = -(outer_product_i - I) * (origin_i + J)] *)
Definition Temp_B (j : Vector3d F) (outer_product : Matrix3d F)
    (ray_origin : Vector3d F) : Vector3d F :=
  - ((outer_product - 1%:M) *m (ray_origin + j)).

Definition symmetric (a : Matrix10d F) : Prop := a^T = a.

Definition positive_semidefinite (a : Matrix10d F) : Prop :=
  forall x : Vector10d F, 0 <= (x^T *m a *m x) ord0 ord0.

(** The quadratic monomial vector
    [(q0^2, q1^2, q2^2, q3^2, q0q1, q0q2, q0q3, q1q2, q1q3, q2q3)] of a
    quaternion [q = (q0, q1, q2, q3) = (w, x, y, z)]. *)
Definition monomials (q : Quaterniond F) : Vector10d F :=
  let: Quat q0 q1 q2 q3 := q in
  \col_(j < 10) nth 0 [:: q0 ^+ 2; q1 ^+ 2; q2 ^+ 2; q3 ^+ 2; q0 * q1; q0 * q2;
                          q0 * q3; q1 * q2; q1 * q3; q2 * q3] j.

Definition unit_quaternion (q : Quaterniond F) : Prop :=
  qw q ^+ 2 + qx q ^+ 2 + qy q ^+ 2 + qz q ^+ 2 = 1.

(** The rotation matrix of a unit quaternion (as [toRotationMatrix] writes
    it). *)
Definition rotation_matrix (q : Quaterniond F) : Matrix3d F :=
  let: Quat w x y z := q in
  \matrix_(i < 3, j < 3) nth 0 (nth [::]
    [:: [:: 1 - 2 * (y * y + z * z); 2 * (x * y - z * w); 2 * (x * z + y * w)];
        [:: 2 * (x * y + z * w); 1 - 2 * (x * x + z * z); 2 * (y * z - x * w)];
        [:: 2 * (x * z - y * w); 2 * (y * z + x * w); 1 - 2 * (x * x + y * y)] ]
    i) j.

(** Three correspondence sequences rearranged by one and the same
    permutation of the indices. *)
Definition same_correspondences
    (ray_origins ray_directions world_points : seq (Vector3d F))
    (ray_origins' ray_directions' world_points' : seq (Vector3d F)) : Prop :=
  perm_eq (zip ray_origins (zip ray_directions world_points))
          (zip ray_origins' (zip ray_directions' world_points')).

(** The sums of the spec, over the first [n] correspondences:
    [G = sum_i V_i * Phi(worldPoint_i)], [J = sum_i V_i * origin_i],
    [A = sum_i Temp_A_i^T * Temp_A_i], [b = sum_i Temp_A_i^T * Temp_B_i] and
    [gamma = sum_i ||Temp_B_i||^2]. *)
Definition G_sum (n : nat) (h : Matrix3d F) (outer_products : seq (Matrix3d F))
    (world_points : seq (Vector3d F)) : Matrix3x10d F :=
  \sum_(i < n)
    V_matrix h (nth 0 outer_products i) *m LeftMultiply (nth 0 world_points i).

Definition J_sum (n : nat) (h : Matrix3d F) (outer_products : seq (Matrix3d F))
    (ray_origins : seq (Vector3d F)) : Vector3d F :=
  \sum_(i < n) V_matrix h (nth 0 outer_products i) *m nth 0 ray_origins i.

Definition A_sum (n : nat) (g : Matrix3x10d F)
    (outer_products : seq (Matrix3d F)) (world_points : seq (Vector3d F)) :
    Matrix10d F :=
  \sum_(i < n)
    (Temp_A g (nth 0 outer_products i) (nth 0 world_points i))^T *m
    Temp_A g (nth 0 outer_products i) (nth 0 world_points i).

Definition b_sum (n : nat) (g : Matrix3x10d F) (j : Vector3d F)
    (outer_products : seq (Matrix3d F))
    (world_points ray_origins : seq (Vector3d F)) : Vector10d F :=
  \sum_(i < n)
    (Temp_A g (nth 0 outer_products i) (nth 0 world_points i))^T *m
    Temp_B j (nth 0 outer_products i) (nth 0 ray_origins i).

Definition gamma_sum (n : nat) (j : Vector3d F)
    (outer_products : seq (Matrix3d F)) (ray_origins : seq (Vector3d F)) : F :=
  \sum_(i < n)
    \sum_(k < 3) (Temp_B j (nth 0 outer_products i) (nth 0 ray_origins i)) k ord0 ^+ 2.

(** One correspondence: [(ray origin, (ray direction, world point))]. *)
Definition correspondence : Type := (Vector3d F * (Vector3d F * Vector3d F))%type.

Definition correspondences
    (ray_origins ray_directions world_points : seq (Vector3d F)) :
    seq correspondence :=
  zip ray_origins (zip ray_directions world_points).

(** The quantities of the three stages as sums of one term for each
    correspondence. *)
Definition H_of (cs : seq correspondence) : Matrix3d F :=
  inverse ((size cs)%:R *: 1%:M - \sum_(c <- cs) c.2.1 *m (c.2.1)^T).

Definition G_of (cs : seq correspondence) : Matrix3x10d F :=
  \sum_(c <- cs)
    V_matrix (H_of cs) (c.2.1 *m (c.2.1)^T) *m LeftMultiply c.2.2.

Definition J_of (cs : seq correspondence) : Vector3d F :=
  \sum_(c <- cs) V_matrix (H_of cs) (c.2.1 *m (c.2.1)^T) *m c.1.

Definition A_of (cs : seq correspondence) : Matrix10d F :=
  \sum_(c <- cs)
    (Temp_A (G_of cs) (c.2.1 *m (c.2.1)^T) c.2.2)^T *m
    Temp_A (G_of cs) (c.2.1 *m (c.2.1)^T) c.2.2.

Definition b_of (cs : seq correspondence) : Vector10d F :=
  \sum_(c <- cs)
    (Temp_A (G_of cs) (c.2.1 *m (c.2.1)^T) c.2.2)^T *m
    Temp_B (J_of cs) (c.2.1 *m (c.2.1)^T) c.1.

Definition gamma_of (cs : seq correspondence) : F :=
  \sum_(c <- cs) squaredNorm (Temp_B (J_of cs) (c.2.1 *m (c.2.1)^T) c.1).

End Notions.

(** ** Concrete inputs, over the rationals *)

Definition vec3 (a b c : rat) : Vector3d rat :=
  \col_(i < 3) nth 0 [:: a; b; c] i.

Definition unit_x : Vector3d rat := vec3 1 0 0.
Definition unit_y : Vector3d rat := vec3 0 1 0.
Definition unit_z : Vector3d rat := vec3 0 0 1.

(** A noiseless synthetic scene for a generalized camera.  The pose is the
    half turn about the z axis, [qs = (0, 0, 0, 1)], with translation
    [ts = (1, 2, 3)].  Six world points are seen along rays of unit direction
    [d_i] at depth [l_i]; each ray origin is placed so that
    [R(qs) * p_i + ts = o_i + l_i * d_i]. *)
Definition scene_rotation : Quaterniond rat := Quat 0 0 0 1.
Definition scene_translation : Vector3d rat := vec3 1 2 3.

Definition scene_world_points : seq (Vector3d rat) :=
  [:: vec3 1 2 3; vec3 4 0 1; vec3 2 5 1; vec3 0 1 7; vec3 3 3 2; vec3 6 1 4].

Definition scene_ray_directions : seq (Vector3d rat) :=
  [:: unit_x; unit_y; unit_z; unit_x; unit_y; unit_z].

Definition scene_depths : seq rat := [:: 1; 2; 1; 3; 2; 1].

Definition scene_ray_origins : seq (Vector3d rat) :=
  [seq rotation_matrix scene_rotation *m c.1 + scene_translation - c.2.1 *: c.2.2
  | c <- zip scene_world_points (zip scene_depths scene_ray_directions)].

(** The three coordinate axes as ray directions, and two parallel rays. *)
Definition axes : seq (Vector3d rat) := [:: unit_x; unit_y; unit_z].
Definition parallel_rays : seq (Vector3d rat) := [:: unit_x; unit_x].

(** A candidate [(q, t)] reproduces the pose [(qs, ts)] when the
    translations agree and the rotations agree up to the sign of the
    quaternion. *)
Definition opposite (q : Quaterniond rat) : Quaterniond rat :=
  Quat (- qw q) (- qx q) (- qy q) (- qz q).

Definition reproduces_pose (qs : Quaterniond rat) (ts : Vector3d rat)
    (q : Quaterniond rat) (t : Vector3d rat) : Prop :=
  (q = qs \/ q = opposite qs) /\ t = ts.

(** * Properties *)

(** ** Polynomial identities behind the left-multiplication table

    The three rows of [Phi(p) * qhat = R(q) * p] are identities of
    commutative rings.  They are proved once for any ring given by a
    [ring_theory], where the [ring] tactic applies, and used at [F] below. *)

Section RowIdentities.

Variables (R : Type) (rO rI : R) (radd rmul rsub : R -> R -> R) (ropp : R -> R).
Hypothesis Rth : ring_theory rO rI radd rmul rsub ropp eq.

Add Ring Rring : Rth.

Declare Scope row_scope.
Local Notation "0" := rO : row_scope.
Local Notation "1" := rI : row_scope.
Local Notation "a + b" := (radd a b) : row_scope.
Local Notation "a * b" := (rmul a b) : row_scope.
Local Notation "- a" := (ropp a) : row_scope.
Local Notation "a - b" := (radd a (ropp b)) : row_scope.
Local Open Scope row_scope.

Let two : R := 1 + 1.

Variables (u w x y z px py pz : R).
Hypothesis unit_norm : w * w + x * x + y * y + z * z = u.

Lemma phi_row0 :
  px * (w * w) + (px * (x * x) + (- px * (y * y) + (- px * (z * z) +
  (0 * (w * x) + (two * pz * (w * y) + (- two * py * (w * z) +
  (two * py * (x * y) + (two * pz * (x * z) + (0 * (y * z) + 0))))))))) =
  (u - two * (y * y + z * z)) * px + two * (x * y - z * w) * py +
  two * (x * z + y * w) * pz.
Proof. rewrite /two -unit_norm; ring. Qed.

Lemma phi_row1 :
  py * (w * w) + (- py * (x * x) + (py * (y * y) + (- py * (z * z) +
  (- two * pz * (w * x) + (0 * (w * y) + (two * px * (w * z) +
  (two * px * (x * y) + (0 * (x * z) + (two * pz * (y * z) + 0))))))))) =
  two * (x * y + z * w) * px + (u - two * (x * x + z * z)) * py +
  two * (y * z - x * w) * pz.
Proof. rewrite /two -unit_norm; ring. Qed.

Lemma phi_row2 :
  pz * (w * w) + (- pz * (x * x) + (- pz * (y * y) + (pz * (z * z) +
  (two * py * (w * x) + (- two * px * (w * y) + (0 * (w * z) +
  (0 * (x * y) + (two * px * (x * z) + (two * py * (y * z) + 0))))))))) =
  two * (x * z - y * w) * px + two * (y * z + x * w) * py +
  (u - two * (x * x + y * y)) * pz.
Proof. rewrite /two -unit_norm; ring. Qed.

(** The three rows together: the squared norm of [Phi(p) * qhat] is the
    squared norm of [p] times the square of the squared norm of [q]. *)
Lemma phi_norm :
  (px * (w * w) + (px * (x * x) + (- px * (y * y) + (- px * (z * z) +
   (0 * (w * x) + (two * pz * (w * y) + (- two * py * (w * z) +
   (two * py * (x * y) + (two * pz * (x * z) + (0 * (y * z) + 0)))))))))) *
  (px * (w * w) + (px * (x * x) + (- px * (y * y) + (- px * (z * z) +
   (0 * (w * x) + (two * pz * (w * y) + (- two * py * (w * z) +
   (two * py * (x * y) + (two * pz * (x * z) + (0 * (y * z) + 0)))))))))) +
  (py * (w * w) + (- py * (x * x) + (py * (y * y) + (- py * (z * z) +
   (- two * pz * (w * x) + (0 * (w * y) + (two * px * (w * z) +
   (two * px * (x * y) + (0 * (x * z) + (two * pz * (y * z) + 0)))))))))) *
  (py * (w * w) + (- py * (x * x) + (py * (y * y) + (- py * (z * z) +
   (- two * pz * (w * x) + (0 * (w * y) + (two * px * (w * z) +
   (two * px * (x * y) + (0 * (x * z) + (two * pz * (y * z) + 0)))))))))) +
  (pz * (w * w) + (- pz * (x * x) + (- pz * (y * y) + (pz * (z * z) +
   (two * py * (w * x) + (- two * px * (w * y) + (0 * (w * z) +
   (0 * (x * y) + (two * px * (x * z) + (two * py * (y * z) + 0)))))))))) *
  (pz * (w * w) + (- pz * (x * x) + (- pz * (y * y) + (pz * (z * z) +
   (two * py * (w * x) + (- two * px * (w * y) + (0 * (w * z) +
   (0 * (x * y) + (two * px * (x * z) + (two * py * (y * z) + 0)))))))))) =
  (w * w + x * x + y * y + z * z) * (w * w + x * x + y * y + z * z) *
  (px * px + py * py + pz * pz).
Proof. rewrite /two; ring. Qed.

End RowIdentities.

(** ** The outcome monad, vector indexing and the counting loop *)

Lemma at_index_nth (T : Type) (x0 : T) (v : seq T) (i : nat) :
  (i < size v)%N -> at_index v i = Done (nth x0 v i).
Proof. by elim: v i => [|x v IH] [|i] //=; exact: IH. Qed.

Lemma at_index_oob (T : Type) (v : seq T) (i : nat) :
  (size v <= i)%N -> at_index v i = OutOfBounds.
Proof. by elim: v i => [|x v IH] [|i] //=; exact: IH. Qed.

Lemma for_range0 (S : Type) (body : nat -> S -> outcome S) (init : S) :
  for_range 0 body init = Done init.
Proof. by []. Qed.

Lemma for_rangeS (S : Type) (n : nat) (body : nat -> S -> outcome S) (init : S) :
  for_range n.+1 body init = (st <- for_range n body init ;; body n st).
Proof. by rewrite /for_range -[n.+1]addn1 iotaD foldl_cat /= add0n. Qed.

(** Once a prefix of the loop has failed, the loop has failed. *)
Lemma for_range_fail (S : Type) (k n : nat) (body : nat -> S -> outcome S)
    (init : S) (r : outcome S) :
  (k <= n)%N -> for_range k body init = r ->
  (forall st, r <> Done st) -> for_range n body init = r.
Proof.
move=> lekn Hk Hr; rewrite -(subnKC lekn).
elim: (n - k)%N => [|m IH]; first by rewrite addn0.
by rewrite addnS for_rangeS IH; case: r Hr {Hk IH} => // st /(_ st).
Qed.

(** Hoare-style rule: a property of the loop state kept by every iteration
    holds after any number of iterations. *)
Lemma for_range_inv (S : Type) (P : S -> Prop) (body : nat -> S -> outcome S)
    (init : S) :
  P init ->
  (forall i st st', P st -> body i st = Done st' -> P st') ->
  forall n st, for_range n body init = Done st -> P st.
Proof.
move=> P0 Pstep; elim=> [|n IH] st; first by case=> <-.
rewrite for_rangeS; case E: (for_range n body init) => [st0| |] //= Hb.
exact: Pstep (IH _ E) Hb.
Qed.

Section Stages.

Variable F : realFieldType.

Implicit Types (world_points ray_origins ray_directions : seq (Vector3d F)).
Implicit Types (ops : seq (Matrix3d F)) (h : Matrix3d F).
Implicit Types (g : Matrix3x10d F) (j : Vector3d F).

(** ** Stage 1: the direction aggregator *)

Lemma foldl_h_step ray_directions (h0 : Matrix3d F) ops0 :
  foldl (@h_step F) (h0, ops0) ray_directions =
  (h0 - \sum_(d <- ray_directions) d *m d^T,
   ops0 ++ [seq d *m d^T | d <- ray_directions]).
Proof.
elim: ray_directions h0 ops0 => [|d ds IH] h0 ops0 /=.
  by rewrite big_nil subr0 cats0.
by rewrite IH last_rcons big_cons opprD addrA cat_rcons.
Qed.

Lemma ComputeH_eq ray_directions ops0 :
  ComputeHMatrixAndRayDirectionsOuterProducts ray_directions (Some ops0) =
  Done (inverse (aggregate ray_directions),
        ops0 ++ [seq d *m d^T | d <- ray_directions]).
Proof.
rewrite /ComputeHMatrixAndRayDirectionsOuterProducts /= foldl_h_step.
by rewrite sub0r addrC.
Qed.

Lemma inverse_correct (m : Matrix3d F) :
  \det m != 0 -> is_inverse_of (inverse m) m.
Proof.
move=> dn0; rewrite /is_inverse_of /inverse.
rewrite -scalemxAl mul_adj_mx -scalemxAr mul_mx_adj.
by rewrite !scale_scalar_mx mulVf.
Qed.

(** ** Stage 2: the helper-matrix builder *)

Lemma helper_loop world_points ray_origins ops h (k : nat) :
  (k <= size ray_origins)%N -> (k <= size ops)%N ->
  (k <= size world_points)%N ->
  for_range k (helper_step world_points ray_origins ops h) (0, 0) =
  Done (\sum_(0 <= i < k)
          V_matrix h (nth 0 ops i) *m LeftMultiply (nth 0 world_points i),
        \sum_(0 <= i < k) V_matrix h (nth 0 ops i) *m nth 0 ray_origins i).
Proof.
elim: k => [|k IH] Hro Hops Hwp; first by rewrite for_range0 !big_geq.
rewrite for_rangeS IH ?(ltnW Hro) ?(ltnW Hops) ?(ltnW Hwp) //=.
rewrite /helper_step (at_index_nth 0 Hops) /= (at_index_nth 0 Hwp) /=.
by rewrite (at_index_nth 0 Hro) /= !big_nat_recr.
Qed.

(** ** Stage 3: the cost-matrix assembler *)

Lemma cost_loop world_points ray_origins ops g j (k : nat) :
  (k <= size ray_origins)%N -> (k <= size ops)%N ->
  (k <= size world_points)%N ->
  for_range k (cost_step world_points ray_origins ops g j) (0, 0, 0) =
  Done (\sum_(0 <= i < k)
          (Temp_A g (nth 0 ops i) (nth 0 world_points i))^T *m
          Temp_A g (nth 0 ops i) (nth 0 world_points i),
        \sum_(0 <= i < k)
          (Temp_A g (nth 0 ops i) (nth 0 world_points i))^T *m
          Temp_B j (nth 0 ops i) (nth 0 ray_origins i),
        \sum_(0 <= i < k)
          squaredNorm (Temp_B j (nth 0 ops i) (nth 0 ray_origins i))).
Proof.
elim: k => [|k IH] Hro Hops Hwp; first by rewrite for_range0 !big_geq.
rewrite for_rangeS IH ?(ltnW Hro) ?(ltnW Hops) ?(ltnW Hwp) //=.
rewrite /cost_step (at_index_nth 0 Hwp) /= (at_index_nth 0 Hops) /=.
by rewrite (at_index_nth 0 Hro) /= !big_nat_recr //= /Temp_B mulNmx.
Qed.

Lemma ComputeHelperMatrices_done world_points ray_origins ops h g0 j0 :
  size ray_origins = size ops -> (size ray_origins <= size world_points)%N ->
  ComputeHelperMatrices world_points ray_origins ops h (Some g0) (Some j0) =
  Done (\sum_(0 <= i < size ray_origins)
          V_matrix h (nth 0 ops i) *m LeftMultiply (nth 0 world_points i),
        \sum_(0 <= i < size ray_origins)
          V_matrix h (nth 0 ops i) *m nth 0 ray_origins i).
Proof.
move=> Hops Hwp; rewrite /ComputeHelperMatrices /CHECK_EQ Hops eqxx /=.
by rewrite -Hops helper_loop // Hops.
Qed.

Lemma ComputeHelperMatrices_check world_points ray_origins ops h
    (pg : ptr (Matrix3x10d F)) (pj : ptr (Vector3d F)) :
  size ray_origins != size ops ->
  ComputeHelperMatrices world_points ray_origins ops h pg pj = CheckFailed.
Proof. by rewrite /ComputeHelperMatrices /CHECK_EQ => /negbTE ->. Qed.

Lemma ComputeHelperMatrices_oob world_points ray_origins ops h g0 j0 :
  size ray_origins = size ops -> (size world_points < size ray_origins)%N ->
  ComputeHelperMatrices world_points ray_origins ops h (Some g0) (Some j0) =
  OutOfBounds.
Proof.
move=> Hops Hwp; rewrite /ComputeHelperMatrices /CHECK_EQ Hops eqxx /=.
rewrite -Hops; apply: (@for_range_fail _ (size world_points).+1) => //.
rewrite for_rangeS helper_loop ?(ltnW Hwp) -?Hops ?(ltnW Hwp) //=.
by rewrite /helper_step (at_index_nth 0) -?Hops //= at_index_oob.
Qed.

(** The entry value of the pointees is never read. *)
Lemma ComputeHelperMatrices_pointee world_points ray_origins ops h g0 j0 g1 j1 :
  ComputeHelperMatrices world_points ray_origins ops h (Some g0) (Some j0) =
  ComputeHelperMatrices world_points ray_origins ops h (Some g1) (Some j1).
Proof. by []. Qed.

Lemma ComputeCostMatrices_done world_points ray_origins ops g j a0 b0 :
  (size world_points <= size ray_origins)%N ->
  (size world_points <= size ops)%N ->
  ComputeCostMatrices world_points ray_origins ops g j (Some a0) (Some b0) =
  Done (\sum_(0 <= i < size world_points)
          (Temp_A g (nth 0 ops i) (nth 0 world_points i))^T *m
          Temp_A g (nth 0 ops i) (nth 0 world_points i),
        \sum_(0 <= i < size world_points)
          (Temp_A g (nth 0 ops i) (nth 0 world_points i))^T *m
          Temp_B j (nth 0 ops i) (nth 0 ray_origins i),
        \sum_(0 <= i < size world_points)
          squaredNorm (Temp_B j (nth 0 ops i) (nth 0 ray_origins i))).
Proof. by move=> Hro Hops; rewrite /ComputeCostMatrices /= cost_loop. Qed.

Lemma ComputeCostMatrices_oob world_points ray_origins ops g j a0 b0 :
  size ray_origins = size ops -> (size ray_origins < size world_points)%N ->
  ComputeCostMatrices world_points ray_origins ops g j (Some a0) (Some b0) =
  OutOfBounds.
Proof.
move=> Hops Hwp; rewrite /ComputeCostMatrices /=.
apply: (@for_range_fail _ (size ray_origins).+1) => //.
rewrite for_rangeS cost_loop -?Hops ?(ltnW Hwp) //=.
by rewrite /cost_step (at_index_nth 0 Hwp) /= at_index_oob // Hops.
Qed.

Lemma ComputeCostMatrices_pointee world_points ray_origins ops g j a0 b0 a1 b1 :
  ComputeCostMatrices world_points ray_origins ops g j (Some a0) (Some b0) =
  ComputeCostMatrices world_points ray_origins ops g j (Some a1) (Some b1).
Proof. by []. Qed.

(** ** The entry point *)

(** What [Upnp] leaves in its frame when the three sequences have one
    length and both output pointers are valid. *)
Lemma Upnp_frame_done ray_origins ray_directions world_points
    (rots : seq (Quaterniond F)) (trans : seq (Vector3d F)) :
  size ray_origins = size ray_directions ->
  size world_points = size ray_origins ->
  let ops := [seq d *m d^T | d <- ray_directions] in
  let h := inverse (aggregate ray_directions) in
  let n := size ray_origins in
  let g := \sum_(0 <= i < n)
             V_matrix h (nth 0 ops i) *m LeftMultiply (nth 0 world_points i) in
  let j := \sum_(0 <= i < n) V_matrix h (nth 0 ops i) *m nth 0 ray_origins i in
  Upnp_frame ray_origins ray_directions world_points (Some rots) (Some trans) =
  Done (Frame ops h g j
          (\sum_(0 <= i < n)
             (Temp_A g (nth 0 ops i) (nth 0 world_points i))^T *m
             Temp_A g (nth 0 ops i) (nth 0 world_points i))
          (\sum_(0 <= i < n)
             (Temp_A g (nth 0 ops i) (nth 0 world_points i))^T *m
             Temp_B j (nth 0 ops i) (nth 0 ray_origins i))
          (\sum_(0 <= i < n)
             squaredNorm (Temp_B j (nth 0 ops i) (nth 0 ray_origins i)))
          [::] [::]).
Proof.
move=> Hrd Hwp ops h n g j; rewrite /Upnp_frame /= ComputeH_eq /= -/ops -/h.
have Hops : size ray_origins = size ops by rewrite size_map.
rewrite ComputeHelperMatrices_done -?Hwp // ?Hwp //= -/n -/g -/j.
by rewrite ComputeCostMatrices_done ?Hwp -?Hops //= Hwp.
Qed.

(** Every run of [Upnp] classified. *)
Lemma Upnp_outcome ray_origins ray_directions world_points
    (rots : ptr (seq (Quaterniond F))) (trans : ptr (seq (Vector3d F))) :
  Upnp ray_origins ray_directions world_points rots trans =
  if ~~ (rots && trans) then CheckFailed
  else if size ray_origins != size ray_directions then CheckFailed
  else if size world_points != size ray_origins then OutOfBounds
  else Done ([::], [::]).
Proof.
case: rots => [rots|] //=; case: trans => [trans|] //=.
case: eqP => [Hrd|/eqP Hrd] /=; last first.
  rewrite /Upnp /Upnp_frame /= ComputeH_eq /=.
  by rewrite ComputeHelperMatrices_check // size_map.
case: eqP => [Hwp|/eqP Hwp] /=.
  by rewrite /Upnp Upnp_frame_done.
have Hops : size ray_origins = size [seq d *m d^T | d <- ray_directions].
  by rewrite size_map.
rewrite /Upnp /Upnp_frame /= ComputeH_eq /=.
move: Hwp; rewrite neq_ltn => /orP [] Hwp.
  by rewrite ComputeHelperMatrices_oob.
by rewrite ComputeHelperMatrices_done ?(ltnW Hwp) //= ComputeCostMatrices_oob.
Qed.

(** ** The left-multiplication table *)

Lemma F_ring_theory : @ring_theory F 0 1 +%R *%R (fun a b => a - b) -%R eq.
Proof.
split; [exact: add0r | exact: addrC | exact: addrA | exact: mul1r
       | exact: mulrC | exact: mulrA | exact: mulrDl | by [] | exact: subrr].
Qed.

Lemma sum3 (f : 'I_3 -> F) : \sum_(k < 3) f k = f i0 + f i1 + f i2.
Proof. by rewrite !big_ord_recl big_ord0 addr0 addrA. Qed.

Lemma LeftMultiply_rotation (p : Vector3d F) (q : Quaterniond F) :
  unit_quaternion q -> LeftMultiply p *m monomials q = rotation_matrix q *m p.
Proof.
case: q => w x y z; rewrite /unit_quaternion /= !expr2 => Hq.
apply/colP => i; rewrite !mxE sum3 !big_ord_recl big_ord0 !mxE /= ?expr2.
rewrite -[2]/(1 + 1).
case: i => [[|[|[|i]]] Hi] //=.
- exact: (phi_row0 F_ring_theory (p i0 ord0) (p i1 ord0) (p i2 ord0) Hq).
- exact: (phi_row1 F_ring_theory (p i0 ord0) (p i1 ord0) (p i2 ord0) Hq).
- exact: (phi_row2 F_ring_theory (p i0 ord0) (p i1 ord0) (p i2 ord0) Hq).
Qed.

Lemma LeftMultiply_linear (a b : F) (p p' : Vector3d F) :
  LeftMultiply (a *: p + b *: p') = a *: LeftMultiply p + b *: LeftMultiply p'.
Proof.
apply/matrixP => i j; rewrite !mxE /=.
case: i => [[|[|[|i]]] Hi] //=;
  case: j => [[|[|[|[|[|[|[|[|[|[|j]]]]]]]]]] Hj] //=;
  by rewrite ?mxE ?mulr0 ?addr0 ?mulrDr ?(mulrCA _ a) ?(mulrCA _ b) //
             ?mulrN ?opprD.
Qed.

Lemma LeftMultiply_entries (p : Vector3d F) (i : 'I_3) (j : 'I_10) :
  exists k : 'I_3,
    LeftMultiply p i j \in
      [:: 0; p k ord0; - p k ord0; 2 * p k ord0; (- 2) * p k ord0].
Proof.
rewrite mxE.
case: i => [[|[|[|i]]] Hi] //=;
  case: j => [[|[|[|[|[|[|[|[|[|[|j]]]]]]]]]] Hj] //=;
  by [exists i0; rewrite !inE eqxx ?orbT
     |exists i1; rewrite !inE eqxx ?orbT
     |exists i2; rewrite !inE eqxx ?orbT].
Qed.

(** ** Sums over the correspondences *)

Lemma size_correspondences ray_origins ray_directions world_points :
  size ray_origins = size ray_directions ->
  size world_points = size ray_origins ->
  size (correspondences ray_origins ray_directions world_points) =
  size ray_origins.
Proof. by move=> Hrd Hwp; rewrite /correspondences !size_zip -Hrd Hwp !minnn. Qed.

(** A sum over the indices of the three sequences and of the cached outer
    products is a sum over the correspondences. *)
Lemma sum_correspondences (V : zmodType)
    (f : Matrix3d F -> correspondence F -> V)
    ray_origins ray_directions world_points :
  size ray_origins = size ray_directions ->
  size world_points = size ray_origins ->
  \sum_(0 <= i < size ray_origins)
     f (nth 0 [seq d *m d^T | d <- ray_directions] i)
       (nth 0 ray_origins i, (nth 0 ray_directions i, nth 0 world_points i)) =
  \sum_(c <- correspondences ray_origins ray_directions world_points)
     f (c.2.1 *m (c.2.1)^T) c.
Proof.
move=> Hrd Hwp; rewrite [RHS](big_nth (0, (0, 0))) size_correspondences //.
apply: eq_big_nat => i /andP [_ Hi].
rewrite /correspondences !nth_zip ?size_zip -?Hrd ?Hwp ?minnn //=.
by rewrite (nth_map 0) // -Hrd.
Qed.

Lemma sum_directions ray_origins ray_directions world_points :
  size ray_origins = size ray_directions ->
  size world_points = size ray_origins ->
  \sum_(d <- ray_directions) d *m d^T =
  \sum_(c <- correspondences ray_origins ray_directions world_points)
     c.2.1 *m (c.2.1)^T.
Proof.
move=> Hrd Hwp.
rewrite -(sum_correspondences (fun m _ => m) Hrd Hwp) Hrd.
rewrite (big_nth 0); apply: eq_big_nat => i /andP [_ Hi].
by rewrite (nth_map 0).
Qed.

(** The frame of [Upnp] in terms of the correspondences. *)
Lemma Upnp_frame_sums ray_origins ray_directions world_points
    (rots : seq (Quaterniond F)) (trans : seq (Vector3d F)) :
  size ray_origins = size ray_directions ->
  size world_points = size ray_origins ->
  let cs := correspondences ray_origins ray_directions world_points in
  Upnp_frame ray_origins ray_directions world_points (Some rots) (Some trans) =
  Done (Frame [seq d *m d^T | d <- ray_directions] (H_of cs) (G_of cs)
          (J_of cs) (A_of cs) (b_of cs) (gamma_of cs) [::] [::]).
Proof.
move=> Hrd Hwp cs; rewrite Upnp_frame_done //=.
have EH : inverse (aggregate ray_directions) = H_of cs.
  rewrite /aggregate /H_of size_correspondences // Hrd.
  by rewrite (sum_directions Hrd Hwp).
rewrite EH.
have EG : \sum_(0 <= i < size ray_origins)
            V_matrix (H_of cs) (nth 0 [seq d *m d^T | d <- ray_directions] i) *m
            LeftMultiply (nth 0 world_points i) = G_of cs.
  exact: (sum_correspondences
            (fun m c => V_matrix (H_of cs) m *m LeftMultiply c.2.2) Hrd Hwp).
have EJ : \sum_(0 <= i < size ray_origins)
            V_matrix (H_of cs) (nth 0 [seq d *m d^T | d <- ray_directions] i) *m
            nth 0 ray_origins i = J_of cs.
  exact: (sum_correspondences
            (fun m c => V_matrix (H_of cs) m *m c.1) Hrd Hwp).
rewrite EG EJ.
congr (Done (Frame _ _ _ _ _ _ _ _ _)).
- exact: (sum_correspondences
            (fun m c => (Temp_A (G_of cs) m c.2.2)^T *m
                        Temp_A (G_of cs) m c.2.2) Hrd Hwp).
- exact: (sum_correspondences
            (fun m c => (Temp_A (G_of cs) m c.2.2)^T *m
                        Temp_B (J_of cs) m c.1) Hrd Hwp).
- exact: (sum_correspondences
            (fun m c => squaredNorm (Temp_B (J_of cs) m c.1)) Hrd Hwp).
Qed.

(** Each quantity is a sum of one term for each correspondence, so it does
    not depend on their order. *)
Lemma H_of_perm (cs cs' : seq (correspondence F)) :
  perm_eq cs cs' -> H_of cs = H_of cs'.
Proof. by move=> Hp; rewrite /H_of (perm_size Hp) (perm_big _ Hp). Qed.

Lemma G_of_perm (cs cs' : seq (correspondence F)) :
  perm_eq cs cs' -> G_of cs = G_of cs'.
Proof. by move=> Hp; rewrite /G_of (H_of_perm Hp) (perm_big _ Hp). Qed.

Lemma J_of_perm (cs cs' : seq (correspondence F)) :
  perm_eq cs cs' -> J_of cs = J_of cs'.
Proof. by move=> Hp; rewrite /J_of (H_of_perm Hp) (perm_big _ Hp). Qed.

Lemma A_of_perm (cs cs' : seq (correspondence F)) :
  perm_eq cs cs' -> A_of cs = A_of cs'.
Proof. by move=> Hp; rewrite /A_of (G_of_perm Hp) (perm_big _ Hp). Qed.

Lemma b_of_perm (cs cs' : seq (correspondence F)) :
  perm_eq cs cs' -> b_of cs = b_of cs'.
Proof.
by move=> Hp; rewrite /b_of (G_of_perm Hp) (J_of_perm Hp) (perm_big _ Hp).
Qed.

Lemma gamma_of_perm (cs cs' : seq (correspondence F)) :
  perm_eq cs cs' -> gamma_of cs = gamma_of cs'.
Proof. by move=> Hp; rewrite /gamma_of (J_of_perm Hp) (perm_big _ Hp). Qed.

(** ** Symmetry and positive semi-definiteness *)

Lemma squaredNorm_ge0 (v : Vector3d F) : 0 <= squaredNorm v.
Proof. by apply: sumr_ge0 => k _; exact: sqr_ge0. Qed.

Lemma gram_quadratic_form (t : Matrix3x10d F) (x : Vector10d F) :
  (x^T *m (t^T *m t) *m x) ord0 ord0 = \sum_(k < 3) (t *m x) k ord0 ^+ 2.
Proof.
rewrite mulmxA -trmx_mul -mulmxA mxE.
by apply: eq_bigr => k _; rewrite mxE expr2.
Qed.

Lemma symmetric0 : symmetric (0 : Matrix10d F).
Proof. by rewrite /symmetric trmx0. Qed.

Lemma positive_semidefinite0 : positive_semidefinite (0 : Matrix10d F).
Proof. by move=> x; rewrite mulmx0 mul0mx mxE. Qed.

Lemma symmetric_gram_add (a : Matrix10d F) (t : Matrix3x10d F) :
  symmetric a -> symmetric (a + t^T *m t).
Proof. by rewrite /symmetric => Ha; rewrite linearD /= trmx_mul trmxK Ha. Qed.

Lemma positive_semidefinite_gram_add (a : Matrix10d F) (t : Matrix3x10d F) :
  positive_semidefinite a -> positive_semidefinite (a + t^T *m t).
Proof.
move=> Ha x; rewrite mulmxDr mulmxDl mxE addr_ge0 //.
by rewrite gram_quadratic_form sumr_ge0 // => k _; exact: sqr_ge0.
Qed.

(** One iteration of the cost loop keeps [*a_matrix] symmetric and positive
    semi-definite and [gamma] non-negative. *)
Lemma cost_step_inv world_points ray_origins ops g j (i : nat)
    (st st' : Matrix10d F * Vector10d F * F) :
  symmetric st.1.1 /\ positive_semidefinite st.1.1 /\ 0 <= st.2 ->
  cost_step world_points ray_origins ops g j i st = Done st' ->
  symmetric st'.1.1 /\ positive_semidefinite st'.1.1 /\ 0 <= st'.2.
Proof.
case: st => [[a b] c] /= [Hs [Hp Hc]]; rewrite /cost_step.
case: (at_index world_points i) => [wp| |] //=.
case: (at_index ops i) => [op| |] //=.
case: (at_index ray_origins i) => [ro| |] //= [<-] /=.
split; first exact: symmetric_gram_add.
split; first exact: positive_semidefinite_gram_add.
by rewrite addr_ge0 // squaredNorm_ge0.
Qed.

Lemma cost_loop_inv world_points ray_origins ops g j (k : nat)
    (st : Matrix10d F * Vector10d F * F) :
  for_range k (cost_step world_points ray_origins ops g j) (0, 0, 0) = Done st ->
  symmetric st.1.1 /\ positive_semidefinite st.1.1 /\ 0 <= st.2.
Proof.
apply: (for_range_inv
          (P := fun st => symmetric st.1.1 /\ positive_semidefinite st.1.1 /\
                          0 <= st.2)).
  by split; [exact: symmetric0 | split; [exact: positive_semidefinite0 |]].
by move=> i s s'; exact: cost_step_inv.
Qed.

End Stages.

(** * The claims *)

Section Claims.

Variable F : realFieldType.

Implicit Types (world_points ray_origins ray_directions : seq (Vector3d F)).
Implicit Types (ops : seq (Matrix3d F)) (h : Matrix3d F).
Implicit Types (g : Matrix3x10d F) (j : Vector3d F).

(** C2: [Upnp] computes [A], [b] and [gamma] but never populates the
    candidate lists.  Whatever the inputs and the prior contents of the two
    output vectors, a call that returns leaves both vectors empty; the call
    returns exactly when both pointers are valid and the three sequences have
    one length; and at that point the locals [a_matrix], [b_mat] and [gamma]
    hold the result of [ComputeCostMatrices]. *)
Theorem Upnp_never_populates ray_origins ray_directions world_points
    (rots : ptr (seq (Quaterniond F))) (trans : ptr (seq (Vector3d F))) :
  Upnp ray_origins ray_directions world_points rots trans =
    (if ~~ (isSome rots && isSome trans) then CheckFailed
     else if size ray_origins != size ray_directions then CheckFailed
     else if size world_points != size ray_origins then OutOfBounds
     else Done ([::], [::]))
  /\ match Upnp_frame ray_origins ray_directions world_points rots trans with
     | Done f =>
         ComputeCostMatrices world_points ray_origins (fr_outer_products f)
           (fr_g_matrix f) (fr_j_matrix f) (Some 0) (Some 0) =
         Done (fr_a_matrix f, fr_b_mat f, fr_gamma f)
         /\ fr_solution_rotations f = [::]
         /\ fr_solution_translations f = [::]
     | _ => True
     end.
Proof.
split; first exact: Upnp_outcome.
case: rots => [rots|] //=; case: trans => [trans|] //=.
rewrite /Upnp_frame /= ComputeH_eq /=.
case: (ComputeHelperMatrices _ _ _ _ _ _) => [[g j]| |] //=.
by case E: (ComputeCostMatrices _ _ _ _ _ _ _) => [[[a b] c]| |].
Qed.

(** C3 (amended): for every sequence of [N] ray directions, the direction
    aggregator, started on an empty cache as [Upnp] does, returns in the cache
    exactly the matrices [d_i * d_i^T] in input order; and whenever
    [N * I - sum_i d_i * d_i^T] is non-singular, the returned [H] is its
    matrix inverse. *)
Theorem direction_aggregator_inverse ray_directions :
  exists H : Matrix3d F,
    ComputeHMatrixAndRayDirectionsOuterProducts ray_directions (Some [::]) =
      Done (H, [seq d *m d^T | d <- ray_directions])
    /\ (\det (aggregate ray_directions) != 0 ->
        is_inverse_of H (aggregate ray_directions)).
Proof.
exists (inverse (aggregate ray_directions)); split; first exact: ComputeH_eq.
exact: inverse_correct.
Qed.

(** C4: for equal-length world points, ray origins and outer products and
    any [H], the helper-matrix builder returns exactly
    [G = sum_i V_i * Phi(worldPoint_i)] and [J = sum_i V_i * origin_i] with
    [V_i = H * (outer_product_i - I)]. *)
Theorem helper_matrices_sums world_points ray_origins ops h
    (g0 : Matrix3x10d F) (j0 : Vector3d F) :
  size world_points = size ray_origins -> size ops = size ray_origins ->
  ComputeHelperMatrices world_points ray_origins ops h (Some g0) (Some j0) =
  Done (G_sum (size ray_origins) h ops world_points,
        J_sum (size ray_origins) h ops ray_origins).
Proof.
move=> Hwp Hops.
by rewrite ComputeHelperMatrices_done ?Hwp // /G_sum /J_sum !big_mkord.
Qed.

(** C5: for equal-length inputs, the cost-matrix assembler returns exactly
    [A = sum_i Temp_A_i^T * Temp_A_i], [b = sum_i Temp_A_i^T * Temp_B_i] and
    [gamma = sum_i ||Temp_B_i||^2], and [gamma >= 0]. *)
Theorem cost_matrices_sums world_points ray_origins ops g j
    (a0 : Matrix10d F) (b0 : Vector10d F) :
  size ray_origins = size world_points -> size ops = size world_points ->
  ComputeCostMatrices world_points ray_origins ops g j (Some a0) (Some b0) =
    Done (A_sum (size world_points) g ops world_points,
          b_sum (size world_points) g j ops world_points ray_origins,
          gamma_sum (size world_points) j ops ray_origins)
  /\ 0 <= gamma_sum (size world_points) j ops ray_origins.
Proof.
move=> Hro Hops; split.
  rewrite ComputeCostMatrices_done ?Hro ?Hops //.
  by rewrite /A_sum /b_sum /gamma_sum !big_mkord.
by apply: sumr_ge0 => i _; exact: squaredNorm_ge0.
Qed.

(** C6: the left-multiplication table is the quaternion-to-rotation formula.
    For every point [p] and unit quaternion [q],
    [Phi(p) * qhat = R(q) * p]; [Phi] is linear in [p]; and every entry of
    [Phi(p)] is [0], plus or minus a coordinate of [p], or plus or minus its
    double. *)
Theorem LeftMultiply_is_rotation (p : Vector3d F) (q : Quaterniond F) :
  unit_quaternion q ->
  LeftMultiply p *m monomials q = rotation_matrix q *m p
  /\ (forall (a b : F) (p1 p2 : Vector3d F),
        LeftMultiply (a *: p1 + b *: p2) =
        a *: LeftMultiply p1 + b *: LeftMultiply p2)
  /\ (forall (i : 'I_3) (j : 'I_10), exists k : 'I_3,
        LeftMultiply p i j \in
          [:: 0; p k ord0; - p k ord0; 2 * p k ord0; (- 2) * p k ord0]).
Proof.
move=> Hq; split; first exact: LeftMultiply_rotation.
by split; [exact: LeftMultiply_linear | exact: LeftMultiply_entries].
Qed.

(** C7: for any world points, ray origins, outer products, [G] and [J], the
    matrix [A] accumulated by the cost-matrix assembler is symmetric and
    positive semi-definite, after every iteration of the loop and in the
    returned result. *)
Theorem cost_matrix_symmetric_psd world_points ray_origins ops g j
    (pa : ptr (Matrix10d F)) (pb : ptr (Vector10d F)) (k : nat)
    (a : Matrix10d F) (b : Vector10d F) (c : F) :
  for_range k (cost_step world_points ray_origins ops g j) (0, 0, 0) =
    Done (a, b, c)
  \/ ComputeCostMatrices world_points ray_origins ops g j pa pb =
    Done (a, b, c) ->
  symmetric a /\ positive_semidefinite a.
Proof.
case=> [Hk|]; first by case: (cost_loop_inv Hk) => Hs [Hp _].
rewrite /ComputeCostMatrices; case: pa => [a0|] //=; case: pb => [b0|] //=.
by move=> Hk; case: (cost_loop_inv Hk) => Hs [Hp _].
Qed.

(** C8: in exact arithmetic, rearranging the three correspondence sequences
    by one and the same permutation leaves [H], [G], [J], [A], [b] and
    [gamma] unchanged: each is a sum of one term for each correspondence. *)
Theorem accumulation_order_independent
    ray_origins ray_directions world_points
    ray_origins' ray_directions' world_points'
    (rots rots' : seq (Quaterniond F)) (trans trans' : seq (Vector3d F)) :
  size ray_origins = size ray_directions ->
  size world_points = size ray_origins ->
  size ray_origins' = size ray_directions' ->
  size world_points' = size ray_origins' ->
  same_correspondences ray_origins ray_directions world_points
    ray_origins' ray_directions' world_points' ->
  exists f f' : UpnpFrame F,
    Upnp_frame ray_origins ray_directions world_points
      (Some rots) (Some trans) = Done f
    /\ Upnp_frame ray_origins' ray_directions' world_points'
         (Some rots') (Some trans') = Done f'
    /\ fr_h_matrix f = fr_h_matrix f' /\ fr_g_matrix f = fr_g_matrix f'
    /\ fr_j_matrix f = fr_j_matrix f' /\ fr_a_matrix f = fr_a_matrix f'
    /\ fr_b_mat f = fr_b_mat f' /\ fr_gamma f = fr_gamma f'.
Proof.
move=> Hrd Hwp Hrd' Hwp' Hp.
rewrite (Upnp_frame_sums _ _ Hrd Hwp) (Upnp_frame_sums _ _ Hrd' Hwp') /=.
do 2![eexists]; do 2![split; first by reflexivity].
rewrite /= (H_of_perm Hp) (G_of_perm Hp) (J_of_perm Hp) (A_of_perm Hp).
by rewrite (b_of_perm Hp) (gamma_of_perm Hp).
Qed.

(** C10: when the three sequences have one length [N], every index used by
    the loops of the pipeline is below [N] and every indexed access is in
    bounds: no stage of [Upnp] ends in the out-of-bounds outcome, and with
    valid output pointers the call returns. *)
Theorem equal_lengths_in_bounds ray_origins ray_directions world_points :
  size ray_origins = size ray_directions ->
  size world_points = size ray_origins ->
  let ops := [seq d *m d^T | d <- ray_directions] in
  [/\ forall i, (i < size ray_origins)%N ->
        exists op w o, [/\ at_index ops i = Done op,
                           at_index world_points i = Done w
                         & at_index ray_origins i = Done o],
      forall h pg pj,
        ComputeHelperMatrices world_points ray_origins ops h pg pj <>
        OutOfBounds,
      forall g j pa pb,
        ComputeCostMatrices world_points ray_origins ops g j pa pb <>
        OutOfBounds,
      forall prots ptrans,
        Upnp ray_origins ray_directions world_points prots ptrans <>
        OutOfBounds
    & forall rots trans,
        Upnp ray_origins ray_directions world_points (Some rots) (Some trans) =
        Done ([::], [::]) ].
Proof.
move=> Hrd Hwp ops.
have Hops : size ray_origins = size ops by rewrite size_map.
split.
- move=> i Hi; exists (nth 0 ops i), (nth 0 world_points i), (nth 0 ray_origins i).
  by split; apply: at_index_nth; rewrite -?Hops ?Hwp.
- move=> h pg pj; rewrite /ComputeHelperMatrices /CHECK_EQ Hops eqxx /=.
  case: pg => [g0|] //=; case: pj => [j0|] //=.
  by rewrite -Hops helper_loop -?Hops ?Hwp.
- move=> g j pa pb; rewrite /ComputeCostMatrices.
  case: pa => [a0|] //=; case: pb => [b0|] //=.
  by rewrite cost_loop -?Hops ?Hwp.
- by move=> prots ptrans; rewrite Upnp_outcome Hwp Hrd !eqxx /=; case: ifP.
- by move=> rots trans; rewrite Upnp_outcome Hwp Hrd !eqxx.
Qed.

End Claims.

(** * Concrete runs, over the rationals *)

Lemma unit_x_norm : unit_x^T *m unit_x = 1%:M.
Proof.
apply/matrixP => i j; rewrite !mxE sum3 !mxE /= !ord1 eqxx.
by rewrite mulr1 mulr0 !addr0.
Qed.

Lemma unit_x_neq0 : unit_x <> 0.
Proof.
move/(congr1 (fun v : Vector3d rat => v i0 ord0)); rewrite !mxE /=.
by move/eqP; rewrite oner_eq0.
Qed.

(** Two parallel rays: the aggregated matrix sends their direction to 0. *)
Lemma aggregate_parallel_rays : aggregate parallel_rays *m unit_x = 0.
Proof.
rewrite /aggregate /parallel_rays /= !big_cons big_nil addr0.
rewrite mulmxBl -scalemxAl mul1mx mulmxDl -mulmxA unit_x_norm mulmx1.
by rewrite scaler_nat mulr2n subrr.
Qed.

(** Each of the coordinate axes once: the aggregated matrix is [2 * I]. *)
Lemma aggregate_axes : aggregate axes = 2%:M.
Proof.
rewrite /aggregate /axes /= !big_cons big_nil addr0.
apply/matrixP => i j; rewrite !mxE !big_ord1 !mxE /=.
case: i => [[|[|[|i]]] Hi] //=; case: j => [[|[|[|j]]] Hj] //=;
  by rewrite ?mulr1n ?mulr0n ?(mulr0, mul0r, mulr1, addr0, add0r, subr0) //
             -[3%:R]/(2%:R + 1) ?addrK.
Qed.

(** The table at the point [(1, 2, 3)]. *)
Example LeftMultiply_1_2_3 :
  LeftMultiply (vec3 1 2 3) =
  \matrix_(i < 3, j < 10) nth 0 (nth [::]
    [:: [:: 1; 1; -1; -1; 0; 6; -4; 4; 6; 0];
        [:: 2; -2; 2; -2; -6; 0; 2; 2; 0; 6];
        [:: 3; -3; -3; 3; 4; -2; 0; 0; 2; 4] ] i) j.
Proof.
apply/matrixP => i j; rewrite !mxE /=.
case: i => [[|[|[|i]]] Hi] //=;
  case: j => [[|[|[|[|[|[|[|[|[|[|j]]]]]]]]]] Hj] //=;
  by rewrite ?mxE /= ?mulNr ?mulr1 -?natrM.
Qed.

(** On the three axes the aggregator returns [H = I / 2]. *)
Example ComputeH_axes :
  ComputeHMatrixAndRayDirectionsOuterProducts axes (Some [::]) =
  Done ((2^-1)%:M, [seq d *m d^T | d <- axes]).
Proof.
rewrite ComputeH_eq aggregate_axes /=; congr (Done (_, _)).
have two_neq0 : (2 : rat) != 0 by rewrite pnatr_eq0.
have [] := @inverse_correct rat 2%:M.
  by rewrite det_scalar expf_neq0.
rewrite mul_mx_scalar => E _.
by rewrite -(scalerK two_neq0 (inverse 2%:M)) E scale_scalar_mx mulr1.
Qed.

(** The rays of the synthetic scene are the exact projections of its world
    points under the pose [(scene_rotation, scene_translation)]. *)
Lemma scene_noiseless :
  [seq rotation_matrix scene_rotation *m c.1 + scene_translation
  | c <- zip scene_world_points (zip scene_depths scene_ray_directions)] =
  [seq c.1 + c.2.1 *: c.2.2
  | c <- zip scene_ray_origins (zip scene_depths scene_ray_directions)].
Proof. by rewrite /scene_ray_origins /= !subrK. Qed.

(** C1: on a noiseless synthetic scene of six correspondences built from a
    known pose, [Upnp] returns, and returns no candidate at all; in
    particular no returned candidate reproduces the pose. *)
Theorem Upnp_synthetic_scene_no_candidate :
  exists (rs : seq (Quaterniond rat)) (ts : seq (Vector3d rat)),
    Upnp scene_ray_origins scene_ray_directions scene_world_points
      (Some [::]) (Some [::]) = Done (rs, ts)
    /\ rs = [::] /\ ts = [::]
    /\ ~ (exists i, (i < size rs)%N /\
            reproduces_pose scene_rotation scene_translation
              (nth scene_rotation rs i) (nth 0 ts i)).
Proof.
exists [::], [::]; split; first by rewrite Upnp_outcome.
by do 2![split=> //]; case=> i [].
Qed.

(** C3, as stated, fails on two parallel rays: the aggregator returns, but
    [N * I - sum_i d_i * d_i^T] is singular, so what it returns is not the
    inverse of that matrix. *)
Lemma direction_aggregator_singular :
  exists H : Matrix3d rat,
    ComputeHMatrixAndRayDirectionsOuterProducts parallel_rays (Some [::]) =
      Done (H, [seq d *m d^T | d <- parallel_rays])
    /\ ~ is_inverse_of H (aggregate parallel_rays).
Proof.
exists (inverse (aggregate parallel_rays)); split; first exact: ComputeH_eq.
case=> /(congr1 (fun m : Matrix3d rat => m *m unit_x)) + _.
rewrite -mulmxA aggregate_parallel_rays mulmx0 mul1mx => /esym.
exact: unit_x_neq0.
Qed.

(** On the three axes the aggregate is non-singular and [H] is its inverse. *)
Lemma direction_aggregator_witness :
  exists H : Matrix3d rat,
    ComputeHMatrixAndRayDirectionsOuterProducts axes (Some [::]) =
      Done (H, [seq d *m d^T | d <- axes])
    /\ is_inverse_of H (aggregate axes).
Proof.
case: (direction_aggregator_inverse axes) => H [E Hinv].
exists H; split=> //; apply: Hinv.
by rewrite aggregate_axes det_scalar expf_neq0 // pnatr_eq0.
Defined.

(** The helper-matrix builder on the six correspondences of the scene. *)
Lemma helper_matrices_witness :
  ComputeHelperMatrices scene_world_points scene_ray_origins
    [seq d *m d^T | d <- scene_ray_directions] 1%:M (Some 0) (Some 0) =
  Done (G_sum 6 1%:M [seq d *m d^T | d <- scene_ray_directions]
          scene_world_points,
        J_sum 6 1%:M [seq d *m d^T | d <- scene_ray_directions]
          scene_ray_origins).
Proof.
exact: (@helper_matrices_sums rat scene_world_points scene_ray_origins
          [seq d *m d^T | d <- scene_ray_directions] 1%:M 0 0 erefl erefl).
Defined.

(** The cost-matrix assembler on the six correspondences of the scene. *)
Lemma cost_matrices_witness :
  ComputeCostMatrices scene_world_points scene_ray_origins
    [seq d *m d^T | d <- scene_ray_directions] 0 0 (Some 0) (Some 0) =
    Done (A_sum 6 0 [seq d *m d^T | d <- scene_ray_directions]
            scene_world_points,
          b_sum 6 0 0 [seq d *m d^T | d <- scene_ray_directions]
            scene_world_points scene_ray_origins,
          gamma_sum 6 0 [seq d *m d^T | d <- scene_ray_directions]
            scene_ray_origins)
  /\ 0 <= gamma_sum 6 0 [seq d *m d^T | d <- scene_ray_directions]
            scene_ray_origins.
Proof.
exact: (@cost_matrices_sums rat scene_world_points scene_ray_origins
          [seq d *m d^T | d <- scene_ray_directions] 0 0 0 0 erefl erefl).
Defined.

(** The half turn about z is a unit quaternion. *)
Lemma scene_rotation_unit : unit_quaternion scene_rotation.
Proof. by rewrite /unit_quaternion /= expr0n /= !add0r expr1n. Defined.

(** The table at the point [(1, 2, 3)] and the half turn about z. *)
Lemma LeftMultiply_witness :
  unit_quaternion scene_rotation /\
  LeftMultiply (vec3 1 2 3) *m monomials scene_rotation =
  rotation_matrix scene_rotation *m vec3 1 2 3.
Proof.
split; first exact: scene_rotation_unit.
by case: (LeftMultiply_is_rotation (vec3 1 2 3) scene_rotation_unit).
Defined.

(** The matrix [A] assembled on the scene is symmetric and positive
    semi-definite. *)
Lemma cost_matrix_witness :
  exists (a : Matrix10d rat) (b : Vector10d rat) (c : rat),
    ComputeCostMatrices scene_world_points scene_ray_origins
      [seq d *m d^T | d <- scene_ray_directions] 0 0 (Some 0) (Some 0) =
    Done (a, b, c)
    /\ symmetric a /\ positive_semidefinite a.
Proof.
have E := @ComputeCostMatrices_done rat scene_world_points scene_ray_origins
            [seq d *m d^T | d <- scene_ray_directions] 0 0 0 0 isT isT.
do 3![eexists]; split; first exact: E.
exact: (cost_matrix_symmetric_psd (k := 0) (or_intror E)).
Defined.

(** The scene and the scene with its correspondences in reverse order. *)
Lemma accumulation_order_witness :
  exists f f' : UpnpFrame rat,
    Upnp_frame scene_ray_origins scene_ray_directions scene_world_points
      (Some [::]) (Some [::]) = Done f
    /\ Upnp_frame (rev scene_ray_origins) (rev scene_ray_directions)
         (rev scene_world_points) (Some [::]) (Some [::]) = Done f'
    /\ fr_h_matrix f = fr_h_matrix f' /\ fr_g_matrix f = fr_g_matrix f'
    /\ fr_j_matrix f = fr_j_matrix f' /\ fr_a_matrix f = fr_a_matrix f'
    /\ fr_b_mat f = fr_b_mat f' /\ fr_gamma f = fr_gamma f'.
Proof.
apply: (@accumulation_order_independent rat
          scene_ray_origins scene_ray_directions scene_world_points
          (rev scene_ray_origins) (rev scene_ray_directions)
          (rev scene_world_points) [::] [::] [::] [::] erefl erefl erefl erefl).
rewrite /same_correspondences -!rev_zip //.
by rewrite perm_sym perm_rev.
Defined.

(** The scene has three sequences of length six: no read past the end. *)
Lemma equal_lengths_witness :
  Upnp scene_ray_origins scene_ray_directions scene_world_points
    (Some [::]) (Some [::]) <> OutOfBounds.
Proof.
case: (@equal_lengths_in_bounds rat scene_ray_origins scene_ray_directions
         scene_world_points erefl erefl) => _ _ _ H _.
exact: H.
Defined.

(** C9: a world-point sequence of another length than the two ray sequences
    is not caught by any check.  With one ray and no world point the helper
    loop reads [world_points[0]] past the end; with no ray and one world
    point the cost loop reads [outer_products[0]] past the end.  Neither run
    is aborted by a failed [CHECK]. *)
Theorem Upnp_world_points_length_unchecked :
  Upnp [:: vec3 0 0 0] [:: unit_x] [::] (Some [::]) (Some [::]) = OutOfBounds
  /\ Upnp [::] [::] [:: vec3 1 2 3] (Some [::]) (Some [::]) = OutOfBounds.
Proof. by rewrite !Upnp_outcome. Qed.

(** * Further properties of the stages *)

Section Further.

Variable F : realFieldType.

Implicit Types (world_points ray_origins ray_directions : seq (Vector3d F)).
Implicit Types (ops : seq (Matrix3d F)) (h : Matrix3d F).
Implicit Types (g : Matrix3x10d F) (j : Vector3d F).

(** ** Every run of the two accumulation stages *)

(** X6: every run of the helper-matrix builder.  The length check on the ray
    origins and the outer products comes first, then the two null checks;
    world points missing at the end make the loop read past the end, and
    world points in excess are never read. *)
Theorem ComputeHelperMatrices_outcome world_points ray_origins ops h
    (pg : ptr (Matrix3x10d F)) (pj : ptr (Vector3d F)) :
  ComputeHelperMatrices world_points ray_origins ops h pg pj =
  if size ray_origins != size ops then CheckFailed
  else if ~~ (isSome pg && isSome pj) then CheckFailed
  else if (size world_points < size ray_origins)%N then OutOfBounds
  else Done (G_sum (size ray_origins) h ops world_points,
             J_sum (size ray_origins) h ops ray_origins).
Proof.
case: eqP => [Hops|/eqP Hops] /=; last exact: ComputeHelperMatrices_check.
case: pg => [g0|] /=; last by rewrite /ComputeHelperMatrices /CHECK_EQ Hops eqxx.
case: pj => [j0|] /=; last by rewrite /ComputeHelperMatrices /CHECK_EQ Hops eqxx.
case: ltnP => Hwp; first exact: ComputeHelperMatrices_oob.
by rewrite ComputeHelperMatrices_done // /G_sum /J_sum !big_mkord.
Qed.

Lemma ComputeCostMatrices_cases world_points ray_origins ops g j
    (pa : ptr (Matrix10d F)) (pb : ptr (Vector10d F)) :
  ComputeCostMatrices world_points ray_origins ops g j pa pb =
  if ~~ (isSome pa && isSome pb) then CheckFailed
  else if (minn (size ray_origins) (size ops) < size world_points)%N
  then OutOfBounds
  else Done (A_sum (size world_points) g ops world_points,
             b_sum (size world_points) g j ops world_points ray_origins,
             gamma_sum (size world_points) j ops ray_origins).
Proof.
case: pa => [a0|] //=; case: pb => [b0|] //=.
case: ltnP => Hwp; last first.
  move: Hwp; rewrite leq_min => /andP [Hro Hops].
  rewrite ComputeCostMatrices_done //.
  by rewrite /A_sum /b_sum /gamma_sum !big_mkord.
rewrite /ComputeCostMatrices /=.
apply: (@for_range_fail _ (minn (size ray_origins) (size ops)).+1) => //.
rewrite for_rangeS cost_loop ?geq_minl ?geq_minr ?(ltnW Hwp) //=.
rewrite /cost_step (at_index_nth 0 Hwp) /=.
case: (leqP (size ops) (size ray_origins)) => Hm.
  by rewrite at_index_oob.
by rewrite (at_index_nth 0 Hm) /= at_index_oob.
Qed.

(** X7: every run of the cost-matrix assembler.  It makes no length check:
    after the two null checks the loop runs over the world points and reads
    past the end as soon as the ray origins or the outer products are fewer;
    ray origins and outer products in excess are never read. *)
Theorem ComputeCostMatrices_outcome world_points ray_origins ops g j
    (pa : ptr (Matrix10d F)) (pb : ptr (Vector10d F)) :
  ComputeCostMatrices world_points ray_origins ops g j pa pb =
  if ~~ (isSome pa && isSome pb) then CheckFailed
  else if (minn (size ray_origins) (size ops) < size world_points)%N
  then OutOfBounds
  else Done (A_sum (size world_points) g ops world_points,
             b_sum (size world_points) g j ops world_points ray_origins,
             gamma_sum (size world_points) j ops ray_origins).
Proof. exact: ComputeCostMatrices_cases. Qed.

End Further.

(** ** The direction aggregator *)

Section Aggregator.

Variable F : realFieldType.

Implicit Types (ray_directions : seq (Vector3d F)) (d : Vector3d F).
Implicit Types (ops : seq (Matrix3d F)).

Lemma trmx_outer d : (d *m d^T)^T = d *m d^T.
Proof. by rewrite trmx_mul trmxK. Qed.

Lemma outer_opp d : (- d) *m (- d)^T = d *m d^T.
Proof. by rewrite linearN /= mulmxN mulNmx opprK. Qed.

Lemma trmx_aggregate ray_directions :
  (aggregate ray_directions)^T = aggregate ray_directions.
Proof.
rewrite /aggregate linearB /= linearZ /= trmx1; congr (_ - _).
by rewrite raddf_sum; apply: eq_bigr => d _; exact: trmx_outer.
Qed.

Lemma trmx_inverse (m : Matrix3d F) : m^T = m -> (inverse m)^T = inverse m.
Proof. by move=> Hm; rewrite /inverse linearZ /= trmx_adj Hm. Qed.

(** A unit direction repeated [n] times: the aggregated matrix sends it to 0. *)
Lemma aggregate_nseq_kernel (n : nat) d :
  d^T *m d = 1%:M -> aggregate (nseq n d) *m d = 0.
Proof.
move=> Hd; rewrite /aggregate size_nseq mulmxBl -scalemxAl mul1mx.
have -> : (\sum_(d' <- nseq n d) d' *m d'^T) *m d = n%:R *: d.
  elim: n => [|n IH]; first by rewrite big_nil mul0mx scale0r.
  rewrite /= big_cons mulmxDl IH -mulmxA Hd mulmx1.
  by rewrite !scaler_nat mulrS.
by rewrite subrr.
Qed.

Lemma unit_direction_neq0 d : d^T *m d = 1%:M -> d <> 0.
Proof.
move=> Hd Hd0; move: Hd; rewrite Hd0 mulmx0.
move/(congr1 (fun m : 'M[F]_1 => m ord0 ord0)); rewrite !mxE eqxx /=.
by move/eqP; rewrite eq_sym oner_eq0.
Qed.

(** X1: the aggregator appends to the cache it is given.  Whatever the cache
    holds on entry, those matrices stay in front, the [N] outer products
    follow in input order, and the returned [H] is the one computed on an
    empty cache; a null cache pointer aborts. *)
Theorem aggregator_appends_to_cache ray_directions ops :
  ComputeHMatrixAndRayDirectionsOuterProducts ray_directions None = CheckFailed
  /\ exists H : Matrix3d F,
       ComputeHMatrixAndRayDirectionsOuterProducts ray_directions (Some ops) =
         Done (H, ops ++ [seq d *m d^T | d <- ray_directions])
       /\ ComputeHMatrixAndRayDirectionsOuterProducts ray_directions
            (Some [::]) =
          Done (H, [seq d *m d^T | d <- ray_directions]).
Proof.
split=> //; exists (inverse (aggregate ray_directions)).
by rewrite !ComputeH_eq.
Qed.

(** X2: what the aggregator returns is symmetric: every cached outer
    product equals its transpose, and so does [H] when the aggregate is
    non-singular. *)
Theorem aggregator_outputs_symmetric ray_directions :
  exists (H : Matrix3d F) (ops : seq (Matrix3d F)),
    ComputeHMatrixAndRayDirectionsOuterProducts ray_directions (Some [::]) =
      Done (H, ops)
    /\ all (fun m : Matrix3d F => m^T == m) ops
    /\ (\det (aggregate ray_directions) != 0 -> H^T = H).
Proof.
exists (inverse (aggregate ray_directions)),
       [seq d *m d^T | d <- ray_directions].
split; first exact: ComputeH_eq.
split; last by move=> _; exact/trmx_inverse/trmx_aggregate.
by rewrite all_map; apply/allP => d _ /=; rewrite trmx_outer.
Qed.

(** X3: parallel rays are degenerate.  When all [n] ray directions are one
    and the same unit vector, [n * I - sum_i d_i * d_i^T] has determinant 0,
    so no matrix is its inverse. *)
Theorem aggregator_parallel_rays_singular (n : nat) d :
  d^T *m d = 1%:M ->
  \det (aggregate (nseq n d)) = 0
  /\ forall H : Matrix3d F, ~ is_inverse_of H (aggregate (nseq n d)).
Proof.
move=> Hd.
have Hno (H : Matrix3d F) : ~ is_inverse_of H (aggregate (nseq n d)).
  case=> /(congr1 (fun m : Matrix3d F => m *m d)) + _.
  rewrite -mulmxA aggregate_nseq_kernel // mulmx0 mul1mx => /esym.
  exact: unit_direction_neq0.
split=> //; apply/eqP; apply/negPn/negP => Hdet.
exact: (Hno _ (inverse_correct Hdet)).
Qed.

(** The aggregated matrix is a function of the cached outer products. *)
Lemma aggregate_outer ray_directions (ray_directions' : seq (Vector3d F)) :
  [seq d *m d^T | d <- ray_directions] =
  [seq d *m d^T | d <- ray_directions'] ->
  aggregate ray_directions = aggregate ray_directions'.
Proof.
move=> E; rewrite /aggregate.
rewrite -(size_map (fun d : Vector3d F => d *m d^T) ray_directions).
rewrite -(big_map (fun d : Vector3d F => d *m d^T) xpredT id) E.
by rewrite size_map big_map.
Qed.

(** X4: the sign of a ray direction does not matter.  Reversing any subset
    of the ray directions (those flagged in [flips]) leaves the returned [H]
    and the cached outer products unchanged, and hence every run of [Upnp]. *)
Theorem direction_sign_irrelevant
    (ray_origins ray_directions world_points : seq (Vector3d F))
    (flips : seq bool)
    (rots : ptr (seq (Quaterniond F))) (trans : ptr (seq (Vector3d F))) ops :
  size flips = size ray_directions ->
  let flipped :=
    [seq (if c.1 then - c.2 else c.2) | c <- zip flips ray_directions] in
  ComputeHMatrixAndRayDirectionsOuterProducts flipped (Some ops) =
  ComputeHMatrixAndRayDirectionsOuterProducts ray_directions (Some ops)
  /\ Upnp_frame ray_origins flipped world_points rots trans =
     Upnp_frame ray_origins ray_directions world_points rots trans.
Proof.
move=> Hsz flipped.
have Eo : [seq d *m d^T | d <- flipped] = [seq d *m d^T | d <- ray_directions].
  rewrite -[in RHS](@unzip2_zip _ _ flips ray_directions) ?Hsz //.
  rewrite /flipped /unzip2 -!map_comp; apply: eq_map => -[[] d] //=.
  exact: outer_opp.
have E ops0 :
  ComputeHMatrixAndRayDirectionsOuterProducts flipped (Some ops0) =
  ComputeHMatrixAndRayDirectionsOuterProducts ray_directions (Some ops0).
  by rewrite !ComputeH_eq (aggregate_outer Eo) Eo.
by split=> //; rewrite /Upnp_frame E.
Qed.

End Aggregator.

(** ** The cost as a sum of squared residuals; batches *)

Section Cost.

Variable F : realFieldType.

Implicit Types (world_points ray_origins : seq (Vector3d F)).
Implicit Types (ops : seq (Matrix3d F)) (h : Matrix3d F).
Implicit Types (g : Matrix3x10d F) (j : Vector3d F).

Lemma squaredNormE (v : Vector3d F) : squaredNorm v = (v^T *m v) ord0 ord0.
Proof. by rewrite mxE; apply: eq_bigr => k _; rewrite mxE expr2. Qed.

Lemma dot_sym (u v : Vector3d F) : (u^T *m v) ord0 ord0 = (v^T *m u) ord0 ord0.
Proof. by rewrite !mxE; apply: eq_bigr => k _; rewrite !mxE mulrC. Qed.

Lemma add_entry (m1 m2 : 'M[F]_1) :
  (m1 + m2) ord0 ord0 = m1 ord0 ord0 + m2 ord0 ord0.
Proof. by rewrite mxE. Qed.

Lemma squaredNorm_add (u v : Vector3d F) :
  squaredNorm (u + v) =
  squaredNorm u + 2 * (v^T *m u) ord0 ord0 + squaredNorm v.
Proof.
rewrite !squaredNormE [(u + v)^T]raddfD /= mulmxDl !mulmxDr.
rewrite !add_entry (dot_sym u v).
by rewrite mulr2n mulrDl mul1r !addrA.
Qed.

(** One correspondence: its share of [x^T A x + 2 b^T x + gamma] is the
    squared norm of its residual. *)
Lemma quadratic_term (t : Matrix3x10d F) (v : Vector3d F) (x : Vector10d F) :
  (x^T *m (t^T *m t) *m x) ord0 ord0 + 2 * ((t^T *m v)^T *m x) ord0 ord0 +
  squaredNorm v =
  squaredNorm (t *m x + v).
Proof.
rewrite squaredNorm_add gram_quadratic_form trmx_mul trmxK -mulmxA.
by rewrite /squaredNorm.
Qed.

Lemma sum_nth_cat (V : zmodType) (n1 n2 : nat) (f f1 f2 : nat -> V) :
  (forall i, (i < n1)%N -> f i = f1 i) ->
  (forall i, (i < n2)%N -> f (i + n1)%N = f2 i) ->
  \sum_(0 <= i < n1 + n2) f i =
  \sum_(0 <= i < n1) f1 i + \sum_(0 <= i < n2) f2 i.
Proof.
move=> H1 H2; rewrite (@big_cat_nat _ _ _ n1) ?leq_addr //=; congr (_ + _).
  by apply: eq_big_nat => i /andP [_]; exact: H1.
rewrite -{1}[n1]add0n big_addn addKn.
by apply: eq_big_nat => i /andP [_]; exact: H2.
Qed.

Lemma nth_cat_left (T : Type) (x0 : T) (s1 s2 : seq T) (i : nat) :
  (i < size s1)%N -> nth x0 (s1 ++ s2) i = nth x0 s1 i.
Proof. by move=> Hi; rewrite nth_cat Hi. Qed.

Lemma nth_cat_right (T : Type) (x0 : T) (s1 s2 : seq T) (i n : nat) :
  size s1 = n -> nth x0 (s1 ++ s2) (i + n) = nth x0 s2 i.
Proof. by move=> <-; rewrite nth_cat ltnNge leq_addl /= addnK. Qed.

(** X8: the triple returned by the cost-matrix assembler is the quadratic
    form of a sum of squares.  For every 10-vector [x],
    [x^T A x + 2 b^T x + gamma] is the sum over the correspondences of
    [||Temp_A_i x + Temp_B_i||^2], hence never negative. *)
Theorem cost_is_sum_of_squared_residuals world_points ray_origins ops g j
    (a0 : Matrix10d F) (b0 : Vector10d F)
    (a : Matrix10d F) (b : Vector10d F) (c : F) (x : Vector10d F) :
  ComputeCostMatrices world_points ray_origins ops g j (Some a0) (Some b0) =
    Done (a, b, c) ->
  (x^T *m a *m x) ord0 ord0 + 2 * (b^T *m x) ord0 ord0 + c =
    \sum_(i < size world_points)
      squaredNorm (Temp_A g (nth 0 ops i) (nth 0 world_points i) *m x +
                   Temp_B j (nth 0 ops i) (nth 0 ray_origins i))
  /\ 0 <= (x^T *m a *m x) ord0 ord0 + 2 * (b^T *m x) ord0 ord0 + c.
Proof.
rewrite ComputeCostMatrices_cases /=; case: ifP => // _ [<- <- <-].
have E : (x^T *m A_sum (size world_points) g ops world_points *m x) ord0 ord0 +
    2 * ((b_sum (size world_points) g j ops world_points ray_origins)^T *m x)
          ord0 ord0 +
    gamma_sum (size world_points) j ops ray_origins =
    \sum_(i < size world_points)
      squaredNorm (Temp_A g (nth 0 ops i) (nth 0 world_points i) *m x +
                   Temp_B j (nth 0 ops i) (nth 0 ray_origins i)).
  rewrite /A_sum /b_sum /gamma_sum mulmx_sumr mulmx_suml summxE.
  rewrite raddf_sum /= mulmx_suml summxE mulr_sumr -!big_split /=.
  by apply: eq_bigr => i _; rewrite -quadratic_term.
split=> //; rewrite E; apply: sumr_ge0 => i _; exact: squaredNorm_ge0.
Qed.

(** X9: the helper-matrix builder is additive over batches.  For one [H],
    running it on two batches of correspondences put end to end gives the
    sums of [G] and of [J] of the two batches run separately. *)
Theorem helper_matrices_batches
    world_points1 ray_origins1 ops1 world_points2 ray_origins2 ops2 h
    (g0 : Matrix3x10d F) (j0 : Vector3d F) :
  size world_points1 = size ray_origins1 -> size ops1 = size ray_origins1 ->
  size world_points2 = size ray_origins2 -> size ops2 = size ray_origins2 ->
  exists (g1 g2 : Matrix3x10d F) (j1 j2 : Vector3d F),
    [/\ ComputeHelperMatrices world_points1 ray_origins1 ops1 h
          (Some g0) (Some j0) = Done (g1, j1),
        ComputeHelperMatrices world_points2 ray_origins2 ops2 h
          (Some g0) (Some j0) = Done (g2, j2)
      & ComputeHelperMatrices (world_points1 ++ world_points2)
          (ray_origins1 ++ ray_origins2) (ops1 ++ ops2) h
          (Some g0) (Some j0) = Done (g1 + g2, j1 + j2)].
Proof.
move=> Hwp1 Hops1 Hwp2 Hops2.
rewrite !ComputeHelperMatrices_done ?size_cat ?Hwp1 ?Hwp2 ?Hops1 ?Hops2 //.
do 4![eexists]; split; [reflexivity | reflexivity |].
congr (Done (_, _)); apply: sum_nth_cat => i Hi.
- by rewrite !nth_cat_left ?Hops1 ?Hwp1.
- by rewrite (nth_cat_right _ _ _ Hops1) (nth_cat_right _ _ _ Hwp1).
- by rewrite !nth_cat_left ?Hops1.
- by rewrite (nth_cat_right _ _ _ Hops1) (nth_cat_right _ _ _ (erefl _)).
Qed.

(** X10: the cost-matrix assembler is additive over batches.  For one [G]
    and [J], running it on two batches put end to end gives the sums of [A],
    of [b] and of [gamma] of the two batches run separately. *)
Theorem cost_matrices_batches
    world_points1 ray_origins1 ops1 world_points2 ray_origins2 ops2 g j
    (a0 : Matrix10d F) (b0 : Vector10d F) :
  size ray_origins1 = size world_points1 -> size ops1 = size world_points1 ->
  size ray_origins2 = size world_points2 -> size ops2 = size world_points2 ->
  exists (a1 a2 : Matrix10d F) (b1 b2 : Vector10d F) (c1 c2 : F),
    [/\ ComputeCostMatrices world_points1 ray_origins1 ops1 g j
          (Some a0) (Some b0) = Done (a1, b1, c1),
        ComputeCostMatrices world_points2 ray_origins2 ops2 g j
          (Some a0) (Some b0) = Done (a2, b2, c2)
      & ComputeCostMatrices (world_points1 ++ world_points2)
          (ray_origins1 ++ ray_origins2) (ops1 ++ ops2) g j
          (Some a0) (Some b0) = Done (a1 + a2, b1 + b2, c1 + c2)].
Proof.
move=> Hro1 Hops1 Hro2 Hops2.
rewrite !ComputeCostMatrices_done ?size_cat ?Hro1 ?Hro2 ?Hops1 ?Hops2 //.
do 6![eexists]; split; [reflexivity | reflexivity |].
congr (Done (_, _, _)); apply: sum_nth_cat => i Hi.
- by rewrite !nth_cat_left ?Hops1.
- by rewrite !(nth_cat_right _ _ _ Hops1) !(nth_cat_right _ _ _ (erefl _)).
- by rewrite !nth_cat_left ?Hops1 ?Hro1.
- by rewrite !(nth_cat_right _ _ _ Hops1) !(nth_cat_right _ _ _ Hro1)
             !(nth_cat_right _ _ _ (erefl _)).
- by rewrite !nth_cat_left ?Hops1 ?Hro1.
- by rewrite !(nth_cat_right _ _ _ Hops1) !(nth_cat_right _ _ _ Hro1).
Qed.

End Cost.

(** ** Lagrange's identity

    [|d|^2 |x|^2 - (d . x)^2] is the squared norm of the cross product, in
    any commutative ring. *)

Section Lagrange.

Variables (R : Type) (rO rI : R) (radd rmul rsub : R -> R -> R) (ropp : R -> R).
Hypothesis Rth : ring_theory rO rI radd rmul rsub ropp eq.

Add Ring Lring : Rth.

Declare Scope lagrange_scope.

Local Notation "a + b" := (radd a b) : lagrange_scope.
Local Notation "a * b" := (rmul a b) : lagrange_scope.
Local Notation "a - b" := (radd a (ropp b)) : lagrange_scope.
Local Open Scope lagrange_scope.

Variables (d0 d1 d2 x0 x1 x2 : R).

Lemma lagrange_identity :
  (d0 * d0 + d1 * d1 + d2 * d2) * (x0 * x0 + x1 * x1 + x2 * x2) -
  (d0 * x0 + d1 * x1 + d2 * x2) * (d0 * x0 + d1 * x1 + d2 * x2) =
  (d1 * x2 - d2 * x1) * (d1 * x2 - d2 * x1) +
  (d2 * x0 - d0 * x2) * (d2 * x0 - d0 * x2) +
  (d0 * x1 - d1 * x0) * (d0 * x1 - d1 * x0).
Proof. ring. Qed.

End Lagrange.

Section AggregatePSD.

Variable F : realFieldType.

Implicit Types (ray_directions : seq (Vector3d F)) (d x : Vector3d F).

Lemma dot3 (u v : Vector3d F) :
  (u^T *m v) ord0 ord0 =
  u i0 ord0 * v i0 ord0 + u i1 ord0 * v i1 ord0 + u i2 ord0 * v i2 ord0.
Proof. by rewrite mxE sum3 !mxE. Qed.

Lemma mul11 (a b : 'M[F]_1) : (a *m b) ord0 ord0 = a ord0 ord0 * b ord0 ord0.
Proof. by rewrite mxE big_ord1. Qed.

(** For a unit direction, [x^T (I - d d^T) x] is a sum of three squares. *)
Lemma unit_residual_ge0 d x :
  d^T *m d = 1%:M -> 0 <= (x^T *m (1%:M - d *m d^T) *m x) ord0 ord0.
Proof.
move=> Hd; rewrite mulmxBr mulmx1 mulmxBl mxE [X in _ + X]mxE.
rewrite mulmxA -mulmxA mul11 (dot_sym x d).
have -> : (x^T *m x) ord0 ord0 = (d^T *m d) ord0 ord0 * (x^T *m x) ord0 ord0.
  by rewrite Hd [1%:M _ _]mxE eqxx mul1r.
rewrite !dot3.
rewrite (lagrange_identity (F_ring_theory F)).
by rewrite !addr_ge0 // -expr2 sqr_ge0.
Qed.

Lemma aggregate_cons d ray_directions :
  aggregate (d :: ray_directions) =
  (1%:M - d *m d^T) + aggregate ray_directions.
Proof.
rewrite /aggregate /= big_cons -natr1 scalerDl scale1r opprD.
by rewrite [_ *: _ + _]addrC addrACA.
Qed.

(** X5: with unit ray directions, the matrix [N * I - sum_i d_i * d_i^T]
    that the aggregator inverts is symmetric and positive semi-definite. *)
Theorem aggregate_unit_directions_psd ray_directions (x : Vector3d F) :
  all (fun d : Vector3d F => d^T *m d == 1%:M) ray_directions ->
  (aggregate ray_directions)^T = aggregate ray_directions
  /\ 0 <= (x^T *m aggregate ray_directions *m x) ord0 ord0.
Proof.
move=> Hunit; split; first exact: trmx_aggregate.
elim: ray_directions Hunit => [_|d ds IH /= /andP [/eqP Hd Hds]].
  by rewrite /aggregate big_nil subr0 scale0r mulmx0 mul0mx mxE.
rewrite aggregate_cons mulmxDr mulmxDl mxE addr_ge0 ?IH //.
exact: unit_residual_ge0.
Qed.

End AggregatePSD.

(** ** Changes of the input that the pipeline does not see *)

Section Invariance.

Variable F : realFieldType.

Implicit Types (world_points ray_origins ray_directions : seq (Vector3d F)).
Implicit Types (ops : seq (Matrix3d F)) (h : Matrix3d F).
Implicit Types (g : Matrix3x10d F) (j c o : Vector3d F).

(** The frame of [Upnp] through the sums of the three stages. *)
Lemma Upnp_frame_stage_sums ray_origins ray_directions world_points
    (rots : seq (Quaterniond F)) (trans : seq (Vector3d F)) :
  size ray_origins = size ray_directions ->
  size world_points = size ray_origins ->
  let ops := [seq d *m d^T | d <- ray_directions] in
  let h := inverse (aggregate ray_directions) in
  let n := size ray_directions in
  let g := G_sum n h ops world_points in
  let j := J_sum n h ops ray_origins in
  Upnp_frame ray_origins ray_directions world_points (Some rots) (Some trans) =
  Done (Frame ops h g j (A_sum n g ops world_points)
          (b_sum n g j ops world_points ray_origins)
          (gamma_sum n j ops ray_origins) [::] [::]).
Proof.
move=> Hrd Hwp /=; rewrite Upnp_frame_done //= Hrd.
by rewrite /G_sum /J_sum /A_sum /b_sum /gamma_sum !big_mkord.
Qed.

Lemma nth_outer ray_directions (i : nat) :
  (i < size ray_directions)%N ->
  nth 0 [seq d *m d^T | d <- ray_directions] i =
  nth 0 ray_directions i *m (nth 0 ray_directions i)^T.
Proof. by move=> Hi; rewrite (nth_map 0). Qed.

(** The matrices [V_i] add up to [-I] when the aggregate is non-singular. *)
Lemma V_matrix_sum ray_directions :
  \det (aggregate ray_directions) != 0 ->
  \sum_(i < size ray_directions)
     V_matrix (inverse (aggregate ray_directions))
       (nth 0 [seq d *m d^T | d <- ray_directions] i) = - 1%:M.
Proof.
move=> Hdet; rewrite /V_matrix -mulmx_sumr sumrB.
have -> : \sum_(i < size ray_directions)
            nth 0 [seq d *m d^T | d <- ray_directions] i =
          \sum_(d <- ray_directions) d *m d^T.
  rewrite [RHS](big_nth 0) big_mkord.
  by apply: eq_bigr => i _; rewrite nth_outer.
rewrite sumr_const card_ord -scaler_nat -opprB mulmxN.
by case: (inverse_correct Hdet) => ->.
Qed.

Lemma Temp_B_shift j c (m : Matrix3d F) o :
  Temp_B (j - c) m (o + c) = Temp_B j m o.
Proof. by rewrite /Temp_B addrACA subrr addr0. Qed.

Lemma LeftMultiply_add (p c : Vector3d F) :
  LeftMultiply (p + c) = LeftMultiply p + LeftMultiply c.
Proof. by rewrite -[p]scale1r -[c]scale1r LeftMultiply_linear !scale1r. Qed.

Lemma LeftMultiply_scale (s : F) (p : Vector3d F) :
  LeftMultiply (s *: p) = s *: LeftMultiply p.
Proof.
rewrite -[s *: p]addr0 -[0 in LHS](scale0r (0 : Vector3d F)).
by rewrite LeftMultiply_linear scale0r addr0.
Qed.

Lemma Temp_A_shift g c (m : Matrix3d F) (p : Vector3d F) :
  Temp_A (g - LeftMultiply c) m (p + c) = Temp_A g m p.
Proof. by rewrite /Temp_A LeftMultiply_add addrACA subrr addr0. Qed.

(** X11: a common shift of the ray origins only moves [J].  When the
    aggregate is non-singular, adding one vector [c] to every ray origin
    leaves [H], [G], [A], [b] and [gamma] unchanged and replaces [J] by
    [J - c]. *)
Theorem origin_shift_invariance ray_origins ray_directions world_points c
    (rots : seq (Quaterniond F)) (trans : seq (Vector3d F)) :
  size ray_origins = size ray_directions ->
  size world_points = size ray_origins ->
  \det (aggregate ray_directions) != 0 ->
  exists f f' : UpnpFrame F,
    Upnp_frame ray_origins ray_directions world_points
      (Some rots) (Some trans) = Done f
    /\ Upnp_frame [seq o + c | o <- ray_origins] ray_directions world_points
         (Some rots) (Some trans) = Done f'
    /\ fr_h_matrix f' = fr_h_matrix f /\ fr_g_matrix f' = fr_g_matrix f
    /\ fr_j_matrix f' = fr_j_matrix f - c
    /\ fr_a_matrix f' = fr_a_matrix f /\ fr_b_mat f' = fr_b_mat f
    /\ fr_gamma f' = fr_gamma f.
Proof.
move=> Hrd Hwp Hdet.
have Hrd' : size [seq o + c | o <- ray_origins] = size ray_directions.
  by rewrite size_map.
have Hwp' : size world_points = size [seq o + c | o <- ray_origins].
  by rewrite size_map.
rewrite (Upnp_frame_stage_sums _ _ Hrd Hwp) (Upnp_frame_stage_sums _ _ Hrd' Hwp').
do 2![eexists]; do 2![split; first by reflexivity].
rewrite /=; set h := inverse _; set ops := map _ ray_directions.
set n := size ray_directions.
have Ho (i : 'I_n) : nth 0 [seq o + c | o <- ray_origins] i =
                     nth 0 ray_origins i + c.
  by rewrite (nth_map 0) // Hrd.
have EJ : J_sum n h ops [seq o + c | o <- ray_origins] =
          J_sum n h ops ray_origins - c.
  rewrite /J_sum.
  under eq_bigr => i _ do rewrite Ho mulmxDr.
  by rewrite big_split /= -mulmx_suml V_matrix_sum // mulNmx mul1mx.
rewrite EJ; do 5![split=> //].
  by rewrite /b_sum; apply: eq_bigr => i _; rewrite Ho Temp_B_shift.
by rewrite /gamma_sum; apply: eq_bigr => i _; rewrite Ho Temp_B_shift.
Qed.

(** X12: a common shift of the world points only moves [G].  When the
    aggregate is non-singular, adding one vector [c] to every world point
    leaves [H], [J], [A], [b] and [gamma] unchanged and replaces [G] by
    [G - Phi(c)]. *)
Theorem world_shift_invariance ray_origins ray_directions world_points c
    (rots : seq (Quaterniond F)) (trans : seq (Vector3d F)) :
  size ray_origins = size ray_directions ->
  size world_points = size ray_origins ->
  \det (aggregate ray_directions) != 0 ->
  exists f f' : UpnpFrame F,
    Upnp_frame ray_origins ray_directions world_points
      (Some rots) (Some trans) = Done f
    /\ Upnp_frame ray_origins ray_directions [seq p + c | p <- world_points]
         (Some rots) (Some trans) = Done f'
    /\ fr_h_matrix f' = fr_h_matrix f
    /\ fr_g_matrix f' = fr_g_matrix f - LeftMultiply c
    /\ fr_j_matrix f' = fr_j_matrix f
    /\ fr_a_matrix f' = fr_a_matrix f /\ fr_b_mat f' = fr_b_mat f
    /\ fr_gamma f' = fr_gamma f.
Proof.
move=> Hrd Hwp Hdet.
have Hwp' : size [seq p + c | p <- world_points] = size ray_origins.
  by rewrite size_map.
rewrite (Upnp_frame_stage_sums _ _ Hrd Hwp) (Upnp_frame_stage_sums _ _ Hrd Hwp').
do 2![eexists]; do 2![split; first by reflexivity].
rewrite /=; set h := inverse _; set ops := map _ ray_directions.
set n := size ray_directions.
have Hp (i : 'I_n) : nth 0 [seq p + c | p <- world_points] i =
                     nth 0 world_points i + c.
  by rewrite (nth_map 0) // Hwp Hrd.
have EG : G_sum n h ops [seq p + c | p <- world_points] =
          G_sum n h ops world_points - LeftMultiply c.
  rewrite /G_sum.
  under eq_bigr => i _ do rewrite Hp LeftMultiply_add mulmxDr.
  by rewrite big_split /= -mulmx_suml V_matrix_sum // mulNmx mul1mx.
rewrite EG; do 3![split=> //].
have EA (i : 'I_n) :
  Temp_A (G_sum n h ops world_points - LeftMultiply c) (nth 0 ops i)
    (nth 0 [seq p + c | p <- world_points] i) =
  Temp_A (G_sum n h ops world_points) (nth 0 ops i) (nth 0 world_points i).
  by rewrite Hp Temp_A_shift.
split; first by rewrite /A_sum; apply: eq_bigr => i _; rewrite EA.
by split=> //; rewrite /b_sum; apply: eq_bigr => i _; rewrite EA.
Qed.

(** A unit direction is in the kernel of [d * d^T - I]. *)
Lemma outer_minus_identity_kernel (d : Vector3d F) :
  d^T *m d = 1%:M -> (d *m d^T - 1%:M) *m d = 0.
Proof. by move=> Hd; rewrite mulmxBl -mulmxA Hd mulmx1 mul1mx subrr. Qed.

(** X13: a ray is a line.  With unit ray directions and a non-singular
    aggregate, sliding each ray origin along its own ray by any amount [l_i]
    leaves [H], [G], [J], [A],
    [b] and [gamma] unchanged. *)
Theorem ray_slide_invariance ray_origins ray_directions world_points
    (slides : seq F)
    (rots : seq (Quaterniond F)) (trans : seq (Vector3d F)) :
  size ray_origins = size ray_directions ->
  size world_points = size ray_origins ->
  size slides = size ray_origins ->
  all (fun d : Vector3d F => d^T *m d == 1%:M) ray_directions ->
  \det (aggregate ray_directions) != 0 ->
  exists f f' : UpnpFrame F,
    Upnp_frame ray_origins ray_directions world_points
      (Some rots) (Some trans) = Done f
    /\ Upnp_frame
         [seq t.2.1 + t.1 *: t.2.2
         | t <- zip slides (zip ray_origins ray_directions)]
         ray_directions world_points (Some rots) (Some trans) = Done f'
    /\ fr_h_matrix f' = fr_h_matrix f /\ fr_g_matrix f' = fr_g_matrix f
    /\ fr_j_matrix f' = fr_j_matrix f
    /\ fr_a_matrix f' = fr_a_matrix f /\ fr_b_mat f' = fr_b_mat f
    /\ fr_gamma f' = fr_gamma f.
Proof.
move=> Hrd Hwp Hsl Hunit _.
set slid := map _ _.
have Hsz : size slid = size ray_origins.
  by rewrite /slid size_map !size_zip Hsl -Hrd !minnn.
have Hrd' : size slid = size ray_directions by rewrite Hsz.
have Hwp' : size world_points = size slid by rewrite Hsz.
rewrite (Upnp_frame_stage_sums _ _ Hrd Hwp) (Upnp_frame_stage_sums _ _ Hrd' Hwp').
do 2![eexists]; do 2![split; first by reflexivity].
rewrite /=; set h := inverse _; set ops := map _ ray_directions.
set n := size ray_directions.
have Ho (i : 'I_n) :
  nth 0 slid i = nth 0 ray_origins i + nth 0 slides i *: nth 0 ray_directions i.
  rewrite /slid (nth_map (0, (0, 0))) ?size_zip ?Hsl -?Hrd ?minnn ?Hrd //.
  by rewrite !nth_zip ?size_zip -?Hrd ?minnn.
have Hk (i : 'I_n) (v : Vector3d F) :
  (nth 0 ops i - 1%:M) *m (nth 0 slid i + v) =
  (nth 0 ops i - 1%:M) *m (nth 0 ray_origins i + v).
  rewrite Ho nth_outer // addrAC mulmxDr -scalemxAr.
  rewrite outer_minus_identity_kernel ?scaler0 ?addr0 //.
  by apply/eqP; apply: (allP Hunit); rewrite mem_nth.
have EJ : J_sum n h ops slid = J_sum n h ops ray_origins.
  rewrite /J_sum; apply: eq_bigr => i _; rewrite /V_matrix -!mulmxA.
  by move: (Hk i 0); rewrite !addr0 => ->.
rewrite EJ; do 5![split=> //].
  by rewrite /b_sum; apply: eq_bigr => i _; rewrite /Temp_B Hk.
by rewrite /gamma_sum; apply: eq_bigr => i _; rewrite /Temp_B Hk.
Qed.

(** X14: a central camera has no linear and no constant term.  When all
    rays start from one point [o] and the aggregate is non-singular,
    [J = -o], [b = 0] and [gamma = 0]. *)
Theorem central_camera_cost ray_directions world_points o
    (rots : seq (Quaterniond F)) (trans : seq (Vector3d F)) :
  size world_points = size ray_directions ->
  \det (aggregate ray_directions) != 0 ->
  exists f : UpnpFrame F,
    Upnp_frame (nseq (size ray_directions) o) ray_directions world_points
      (Some rots) (Some trans) = Done f
    /\ fr_j_matrix f = - o /\ fr_b_mat f = 0 /\ fr_gamma f = 0.
Proof.
move=> Hwp Hdet.
have Hrd : size (nseq (size ray_directions) o) = size ray_directions.
  by rewrite size_nseq.
have Hwp' : size world_points = size (nseq (size ray_directions) o).
  by rewrite size_nseq.
rewrite (Upnp_frame_stage_sums _ _ Hrd Hwp').
eexists; split; first by reflexivity.
rewrite /=; set h := inverse _; set ops := map _ ray_directions.
set n := size ray_directions.
have Ho (i : 'I_n) : nth 0 (nseq n o) i = o by rewrite nth_nseq ltn_ord.
have EJ : J_sum n h ops (nseq n o) = - o.
  rewrite /J_sum.
  under eq_bigr => i _ do rewrite Ho.
  by rewrite -mulmx_suml V_matrix_sum // mulNmx mul1mx.
have EB (i : 'I_n) (m : Matrix3d F) : Temp_B (- o) m (nth 0 (nseq n o) i) = 0.
  by rewrite /Temp_B Ho subrr mulmx0 oppr0.
rewrite EJ; split=> //; split.
  by rewrite /b_sum big1 // => i _; rewrite EB mulmx0.
rewrite /gamma_sum big1 // => i _; rewrite EB big1 // => k _.
by rewrite mxE expr0n.
Qed.

(** X15: the scale of the scene.  With a non-singular aggregate,
    multiplying every ray origin and every world point by a factor [s]
    leaves [H] unchanged, multiplies [G] and [J]
    by [s], and multiplies [A], [b] and [gamma] by [s^2]. *)
Theorem scale_covariance ray_origins ray_directions world_points (s : F)
    (rots : seq (Quaterniond F)) (trans : seq (Vector3d F)) :
  size ray_origins = size ray_directions ->
  size world_points = size ray_origins ->
  \det (aggregate ray_directions) != 0 ->
  exists f f' : UpnpFrame F,
    Upnp_frame ray_origins ray_directions world_points
      (Some rots) (Some trans) = Done f
    /\ Upnp_frame [seq s *: o | o <- ray_origins] ray_directions
         [seq s *: p | p <- world_points] (Some rots) (Some trans) = Done f'
    /\ fr_h_matrix f' = fr_h_matrix f
    /\ fr_g_matrix f' = s *: fr_g_matrix f
    /\ fr_j_matrix f' = s *: fr_j_matrix f
    /\ fr_a_matrix f' = s ^+ 2 *: fr_a_matrix f
    /\ fr_b_mat f' = s ^+ 2 *: fr_b_mat f
    /\ fr_gamma f' = s ^+ 2 * fr_gamma f.
Proof.
move=> Hrd Hwp _.
have Hrd' : size [seq s *: o | o <- ray_origins] = size ray_directions.
  by rewrite size_map.
have Hwp' : size [seq s *: p | p <- world_points] =
            size [seq s *: o | o <- ray_origins].
  by rewrite !size_map.
rewrite (Upnp_frame_stage_sums _ _ Hrd Hwp) (Upnp_frame_stage_sums _ _ Hrd' Hwp').
do 2![eexists]; do 2![split; first by reflexivity].
rewrite /=; set h := inverse _; set ops := map _ ray_directions.
set n := size ray_directions.
have Ho (i : 'I_n) : nth 0 [seq s *: o | o <- ray_origins] i =
                     s *: nth 0 ray_origins i.
  by rewrite (nth_map 0) // Hrd.
have Hp (i : 'I_n) : nth 0 [seq s *: p | p <- world_points] i =
                     s *: nth 0 world_points i.
  by rewrite (nth_map 0) // Hwp Hrd.
have EG : G_sum n h ops [seq s *: p | p <- world_points] =
          s *: G_sum n h ops world_points.
  rewrite /G_sum scaler_sumr; apply: eq_bigr => i _.
  by rewrite Hp LeftMultiply_scale -scalemxAr.
have EJ : J_sum n h ops [seq s *: o | o <- ray_origins] =
          s *: J_sum n h ops ray_origins.
  rewrite /J_sum scaler_sumr; apply: eq_bigr => i _.
  by rewrite Ho -scalemxAr.
have EA (i : 'I_n) g :
  Temp_A (s *: g) (nth 0 ops i) (nth 0 [seq s *: p | p <- world_points] i) =
  s *: Temp_A g (nth 0 ops i) (nth 0 world_points i).
  by rewrite /Temp_A Hp LeftMultiply_scale -scalerDr -scalemxAr.
have EB (i : 'I_n) j :
  Temp_B (s *: j) (nth 0 ops i) (nth 0 [seq s *: o | o <- ray_origins] i) =
  s *: Temp_B j (nth 0 ops i) (nth 0 ray_origins i).
  by rewrite /Temp_B Ho -scalerDr -scalemxAr scalerN.
rewrite EG EJ; do 3![split=> //]; split; last split.
- rewrite /A_sum [RHS]scaler_sumr; apply: eq_bigr => i _.
  by rewrite EA [(s *: _)^T]linearZ /= -scalemxAl -scalemxAr scalerA expr2.
- rewrite /b_sum [RHS]scaler_sumr; apply: eq_bigr => i _.
  by rewrite EA EB [(s *: _)^T]linearZ /= -scalemxAl -scalemxAr scalerA expr2.
- rewrite /gamma_sum [RHS]mulr_sumr; apply: eq_bigr => i _.
  rewrite EB [RHS]mulr_sumr; apply: eq_bigr => k _.
  by rewrite mxE exprMn.
Qed.

End Invariance.

(** ** The left-multiplication table and norms *)

Section Table.

Variable F : realFieldType.

(** X16: the table turns a point into a vector of the same length.  For
    every point [p] and quaternion [q], the squared norm of [Phi(p) * qhat]
    is the squared norm of [p] times the square of
    [q0^2 + q1^2 + q2^2 + q3^2]; for a unit quaternion the norm of [p] is
    kept. *)
Theorem LeftMultiply_norm (p : Vector3d F) (q : Quaterniond F) :
  squaredNorm (LeftMultiply p *m monomials q) =
  (qw q ^+ 2 + qx q ^+ 2 + qy q ^+ 2 + qz q ^+ 2) ^+ 2 * squaredNorm p.
Proof.
case: q => w x y z; rewrite /squaredNorm !sum3 /= !mxE !big_ord_recl !big_ord0.
rewrite !mxE /= !expr2 -[2]/(1 + 1).
exact: (phi_norm (F_ring_theory F) w x y z (p i0 ord0) (p i1 ord0) (p i2 ord0)).
Qed.

(** X17: the table loses nothing: its first column is the point itself,
    so two points with the same table are equal. *)
Theorem LeftMultiply_injective (p p' : Vector3d F) :
  LeftMultiply p = LeftMultiply p' -> p = p'.
Proof.
have col0 (v : Vector3d F) (i : 'I_3) : LeftMultiply v i ord0 = v i ord0.
  by rewrite mxE; case: i => [[|[|[|i]]] Hi] //=; congr (v _ _); exact: val_inj.
by move=> E; apply/colP => i; rewrite -!col0 E.
Qed.

End Table.

(** ** The further properties on the synthetic scene *)

Lemma unit_y_norm : unit_y^T *m unit_y = 1%:M.
Proof.
apply/matrixP => i j; rewrite !mxE sum3 !mxE /= !ord1 eqxx.
by rewrite mulr1 mulr0 !(addr0, add0r).
Qed.

Lemma unit_z_norm : unit_z^T *m unit_z = 1%:M.
Proof.
apply/matrixP => i j; rewrite !mxE sum3 !mxE /= !ord1 eqxx.
by rewrite mulr1 mulr0 !(addr0, add0r).
Qed.

Lemma scene_directions_unit :
  all (fun d : Vector3d rat => d^T *m d == 1%:M) scene_ray_directions.
Proof. by rewrite /= unit_x_norm unit_y_norm unit_z_norm eqxx. Defined.

(** The scene looks twice along each axis: the aggregate is [4 * I]. *)
Lemma aggregate_scene : aggregate scene_ray_directions = 4%:M.
Proof.
rewrite /aggregate /scene_ray_directions /= !big_cons big_nil addr0.
apply/matrixP => i j; rewrite !mxE !big_ord1 !mxE /=.
case: i => [[|[|[|i]]] Hi] //=; case: j => [[|[|[|j]]] Hj] //=;
  by rewrite ?mulr1n ?mulr0n ?(mulr0, mul0r, mulr1, addr0, add0r, subr0) //
             -[6%:R]/(4%:R + 1 + 1) -?addrA ?addrK.
Qed.

Lemma scene_aggregate_regular : \det (aggregate scene_ray_directions) != 0.
Proof. by rewrite aggregate_scene det_scalar expf_neq0 // pnatr_eq0. Defined.

(** Two parallel unit rays along the x axis. *)
Lemma aggregator_parallel_rays_witness :
  \det (aggregate (nseq 2 unit_x)) = 0
  /\ forall H : Matrix3d rat, ~ is_inverse_of H (aggregate (nseq 2 unit_x)).
Proof. exact: (aggregator_parallel_rays_singular 2 unit_x_norm). Defined.

(** The axes with the first and the last one reversed. *)
Lemma direction_sign_witness :
  ComputeHMatrixAndRayDirectionsOuterProducts
    [:: - unit_x; unit_y; - unit_z] (Some [::]) =
  ComputeHMatrixAndRayDirectionsOuterProducts axes (Some [::])
  /\ Upnp_frame [:: unit_x; unit_y; unit_z] [:: - unit_x; unit_y; - unit_z]
       [:: vec3 1 2 3; vec3 4 0 1; vec3 2 5 1] (Some [::]) (Some [::]) =
     Upnp_frame [:: unit_x; unit_y; unit_z] axes
       [:: vec3 1 2 3; vec3 4 0 1; vec3 2 5 1] (Some [::]) (Some [::]).
Proof.
exact: (@direction_sign_irrelevant rat [:: unit_x; unit_y; unit_z] axes
          [:: vec3 1 2 3; vec3 4 0 1; vec3 2 5 1] [:: true; false; true]
          (Some [::]) (Some [::]) [::] erefl).
Defined.

(** The cost of the scene at the monomial vector of its rotation. *)
Lemma cost_residuals_witness :
  exists (a : Matrix10d rat) (b : Vector10d rat) (c : rat),
    ComputeCostMatrices scene_world_points scene_ray_origins
      [seq d *m d^T | d <- scene_ray_directions] 0 0 (Some 0) (Some 0) =
    Done (a, b, c)
    /\ 0 <= ((monomials scene_rotation)^T *m a *m monomials scene_rotation)
              ord0 ord0 +
            2 * (b^T *m monomials scene_rotation) ord0 ord0 + c.
Proof.
have E := @ComputeCostMatrices_done rat scene_world_points scene_ray_origins
            [seq d *m d^T | d <- scene_ray_directions] 0 0 0 0 isT isT.
do 3![eexists]; split; first exact: E.
by case: (cost_is_sum_of_squared_residuals (monomials scene_rotation) E).
Defined.

(** The scene followed by a second copy of itself. *)
Lemma helper_batches_witness :
  exists (g1 g2 : Matrix3x10d rat) (j1 j2 : Vector3d rat),
    [/\ ComputeHelperMatrices scene_world_points scene_ray_origins
          [seq d *m d^T | d <- scene_ray_directions] 1%:M
          (Some 0) (Some 0) = Done (g1, j1),
        ComputeHelperMatrices scene_world_points scene_ray_origins
          [seq d *m d^T | d <- scene_ray_directions] 1%:M
          (Some 0) (Some 0) = Done (g2, j2)
      & ComputeHelperMatrices (scene_world_points ++ scene_world_points)
          (scene_ray_origins ++ scene_ray_origins)
          ([seq d *m d^T | d <- scene_ray_directions] ++
           [seq d *m d^T | d <- scene_ray_directions]) 1%:M
          (Some 0) (Some 0) = Done (g1 + g2, j1 + j2)].
Proof.
exact: (@helper_matrices_batches rat
          scene_world_points scene_ray_origins
          [seq d *m d^T | d <- scene_ray_directions]
          scene_world_points scene_ray_origins
          [seq d *m d^T | d <- scene_ray_directions] 1%:M 0 0
          erefl erefl erefl erefl).
Defined.

Lemma cost_batches_witness :
  exists (a1 a2 : Matrix10d rat) (b1 b2 : Vector10d rat) (c1 c2 : rat),
    [/\ ComputeCostMatrices scene_world_points scene_ray_origins
          [seq d *m d^T | d <- scene_ray_directions] 0 0
          (Some 0) (Some 0) = Done (a1, b1, c1),
        ComputeCostMatrices scene_world_points scene_ray_origins
          [seq d *m d^T | d <- scene_ray_directions] 0 0
          (Some 0) (Some 0) = Done (a2, b2, c2)
      & ComputeCostMatrices (scene_world_points ++ scene_world_points)
          (scene_ray_origins ++ scene_ray_origins)
          ([seq d *m d^T | d <- scene_ray_directions] ++
           [seq d *m d^T | d <- scene_ray_directions]) 0 0
          (Some 0) (Some 0) = Done (a1 + a2, b1 + b2, c1 + c2)].
Proof.
exact: (@cost_matrices_batches rat
          scene_world_points scene_ray_origins
          [seq d *m d^T | d <- scene_ray_directions]
          scene_world_points scene_ray_origins
          [seq d *m d^T | d <- scene_ray_directions] 0 0 0 0
          erefl erefl erefl erefl).
Defined.

(** The scene with every ray origin moved by [(1, 2, 3)]. *)
Lemma origin_shift_witness :
  exists f f' : UpnpFrame rat,
    Upnp_frame scene_ray_origins scene_ray_directions scene_world_points
      (Some [::]) (Some [::]) = Done f
    /\ Upnp_frame [seq o + vec3 1 2 3 | o <- scene_ray_origins]
         scene_ray_directions scene_world_points (Some [::]) (Some [::]) =
       Done f'
    /\ fr_h_matrix f' = fr_h_matrix f /\ fr_g_matrix f' = fr_g_matrix f
    /\ fr_j_matrix f' = fr_j_matrix f - vec3 1 2 3
    /\ fr_a_matrix f' = fr_a_matrix f /\ fr_b_mat f' = fr_b_mat f
    /\ fr_gamma f' = fr_gamma f.
Proof.
exact: (@origin_shift_invariance rat scene_ray_origins scene_ray_directions
          scene_world_points (vec3 1 2 3) [::] [::] erefl erefl
          scene_aggregate_regular).
Defined.

(** The scene with every world point moved by [(1, 2, 3)]. *)
Lemma world_shift_witness :
  exists f f' : UpnpFrame rat,
    Upnp_frame scene_ray_origins scene_ray_directions scene_world_points
      (Some [::]) (Some [::]) = Done f
    /\ Upnp_frame scene_ray_origins scene_ray_directions
         [seq p + vec3 1 2 3 | p <- scene_world_points]
         (Some [::]) (Some [::]) = Done f'
    /\ fr_h_matrix f' = fr_h_matrix f
    /\ fr_g_matrix f' = fr_g_matrix f - LeftMultiply (vec3 1 2 3)
    /\ fr_j_matrix f' = fr_j_matrix f
    /\ fr_a_matrix f' = fr_a_matrix f /\ fr_b_mat f' = fr_b_mat f
    /\ fr_gamma f' = fr_gamma f.
Proof.
exact: (@world_shift_invariance rat scene_ray_origins scene_ray_directions
          scene_world_points (vec3 1 2 3) [::] [::] erefl erefl
          scene_aggregate_regular).
Defined.

(** The scene with every ray origin moved along its ray by the depth of its
    point: every ray then starts at the point it sees. *)
Lemma ray_slide_witness :
  exists f f' : UpnpFrame rat,
    Upnp_frame scene_ray_origins scene_ray_directions scene_world_points
      (Some [::]) (Some [::]) = Done f
    /\ Upnp_frame
         [seq t.2.1 + t.1 *: t.2.2
         | t <- zip scene_depths (zip scene_ray_origins scene_ray_directions)]
         scene_ray_directions scene_world_points (Some [::]) (Some [::]) =
       Done f'
    /\ fr_h_matrix f' = fr_h_matrix f /\ fr_g_matrix f' = fr_g_matrix f
    /\ fr_j_matrix f' = fr_j_matrix f
    /\ fr_a_matrix f' = fr_a_matrix f /\ fr_b_mat f' = fr_b_mat f
    /\ fr_gamma f' = fr_gamma f.
Proof.
exact: (@ray_slide_invariance rat scene_ray_origins scene_ray_directions
          scene_world_points scene_depths [::] [::] erefl erefl erefl
          scene_directions_unit scene_aggregate_regular).
Defined.

(** The directions and points of the scene seen from one centre. *)
Lemma central_camera_witness :
  exists f : UpnpFrame rat,
    Upnp_frame (nseq 6 (vec3 1 2 3)) scene_ray_directions scene_world_points
      (Some [::]) (Some [::]) = Done f
    /\ fr_j_matrix f = - vec3 1 2 3 /\ fr_b_mat f = 0 /\ fr_gamma f = 0.
Proof.
exact: (@central_camera_cost rat scene_ray_directions scene_world_points
          (vec3 1 2 3) [::] [::] erefl scene_aggregate_regular).
Defined.

(** The scene at three times its size. *)
Lemma scale_witness :
  exists f f' : UpnpFrame rat,
    Upnp_frame scene_ray_origins scene_ray_directions scene_world_points
      (Some [::]) (Some [::]) = Done f
    /\ Upnp_frame [seq 3 *: o | o <- scene_ray_origins] scene_ray_directions
         [seq 3 *: p | p <- scene_world_points] (Some [::]) (Some [::]) =
       Done f'
    /\ fr_h_matrix f' = fr_h_matrix f
    /\ fr_g_matrix f' = 3 *: fr_g_matrix f
    /\ fr_j_matrix f' = 3 *: fr_j_matrix f
    /\ fr_a_matrix f' = 3 ^+ 2 *: fr_a_matrix f
    /\ fr_b_mat f' = 3 ^+ 2 *: fr_b_mat f
    /\ fr_gamma f' = 3 ^+ 2 * fr_gamma f.
Proof.
exact: (@scale_covariance rat scene_ray_origins scene_ray_directions
          scene_world_points 3 [::] [::] erefl erefl
          scene_aggregate_regular).
Defined.

(** Two equal tables, at the point [(1, 2, 3)]. *)
Lemma LeftMultiply_injective_witness :
  LeftMultiply (vec3 1 2 3) = LeftMultiply (vec3 1 (1 + 1) 3)
  /\ vec3 1 2 3 = vec3 1 (1 + 1) 3.
Proof.
have E : LeftMultiply (vec3 1 2 3) = LeftMultiply (vec3 1 (1 + 1) 3) by [].
exact: (conj E (LeftMultiply_injective E)).
Defined.

(** On the three axes [H] is symmetric. *)
Lemma aggregator_symmetric_witness :
  exists (H : Matrix3d rat) (ops : seq (Matrix3d rat)),
    ComputeHMatrixAndRayDirectionsOuterProducts axes (Some [::]) =
      Done (H, ops)
    /\ all (fun m : Matrix3d rat => m^T == m) ops /\ H^T = H.
Proof.
case: (aggregator_outputs_symmetric axes) => H [ops [E [Hops HH]]].
exists H, ops; split=> //; split=> //; apply: HH.
by rewrite aggregate_axes det_scalar expf_neq0 // pnatr_eq0.
Defined.

(** The unit directions of the scene. *)
Lemma aggregate_psd_witness :
  (aggregate scene_ray_directions)^T = aggregate scene_ray_directions
  /\ 0 <= ((vec3 1 2 3)^T *m aggregate scene_ray_directions *m vec3 1 2 3)
            ord0 ord0.
Proof.
exact: (aggregate_unit_directions_psd (vec3 1 2 3) scene_directions_unit).
Defined.
